(** * Redlines (track changes) extension: a shallow embedding of [src/index.ts]

    The development has these parts.

    - [Doc]: the document model the extension consumes from its host editor:
      marks, nodes, fragments, slices and the flat token indexing of
      positions.  The extension reads documents as trees ([node.marks],
      [node.nodeSize], [content.forEach]) and writes them through
      position-based transaction calls ([addMark], [removeMark], [step]).
    - [Session]: the extension's storage, the editor state it mutates and the
      log of host-visible calls, threaded through a small state-and-exception
      monad.
    - [Resolver]: [changeTrack], the accept / reject command.
    - [Transformer]: [onTransaction], the hook that rewrites every incoming
      transaction.
    - [Spec] and [Scenarios]: the vocabulary of the properties and the
      concrete documents they are tried on; the properties follow. *)

From Stdlib Require Import ZArith List String Ascii Bool Lia.
Import ListNotations.
Open Scope Z_scope.

Set Implicit Arguments.
Set Warnings "-register-all".

(* ================================================================== *)
(** ** The host document model *)
(* ================================================================== *)

Module Doc.

(** [MARK_INSERTION], [MARK_DELETION]; every other mark of the schema is
    [other_mark] with its name. *)
Inductive MarkType : Type :=
| insertion
| deletion
| other_mark (name : string).

Definition MarkType_eqb (a b : MarkType) : bool :=
  match a, b with
  | insertion, insertion => true
  | deletion, deletion => true
  | other_mark x, other_mark y => String.eqb x y
  | _, _ => false
  end.

(** The three attributes of [InsertionMark] / [DeletionMark].  The default of
    ['data-op-date'] is the empty string ([None]); a created mark carries the
    number [getMinuteTime()] returned. *)
Record Mark : Type := mkMark {
  mark_type : MarkType;
  data_op_user_id : string;
  data_op_user_nickname : string;
  data_op_date : option Z
}.

(** [markType.create()] with no attributes: all defaults. *)
Definition create_default (t : MarkType) : Mark := mkMark t "" "" None.

Definition option_Z_eqb (a b : option Z) : bool :=
  match a, b with
  | Some x, Some y => x =? y
  | None, None => true
  | _, _ => false
  end.

Definition Mark_eqb (a b : Mark) : bool :=
  MarkType_eqb (mark_type a) (mark_type b)
  && String.eqb (data_op_user_id a) (data_op_user_id b)
  && String.eqb (data_op_user_nickname a) (data_op_user_nickname b)
  && option_Z_eqb (data_op_date a) (data_op_date b).

Section ListEqb.
Variable A : Type.
Variable eqb : A -> A -> bool.
Fixpoint list_eqb (l1 l2 : list A) : bool :=
  match l1, l2 with
  | [], [] => true
  | x :: r1, y :: r2 => eqb x y && list_eqb r1 r2
  | _, _ => false
  end.
End ListEqb.

Definition marks_eqb : list Mark -> list Mark -> bool := list_eqb Mark_eqb.

(** [node.marks.find((m) => m.type.name === name)], as a truth value. *)
Definition has_mark (t : MarkType) (marks : list Mark) : bool :=
  existsb (fun m => MarkType_eqb (mark_type m) t) marks.

(** Rank of a mark type in the schema: the extension registers
    [InsertionMark, DeletionMark] in this order. *)
Definition rank (t : MarkType) : Z :=
  match t with insertion => 0 | deletion => 1 | other_mark _ => 2 end.

(** [mark.addToSet(set)]: a mark excludes the marks of its own type only (no
    [excludes] is declared), and the set is kept in rank order. *)
Fixpoint insert_by_rank (m : Mark) (set : list Mark) : list Mark :=
  match set with
  | [] => [m]
  | x :: r =>
      if rank (mark_type m) <? rank (mark_type x) then m :: set
      else x :: insert_by_rank m r
  end.

Definition remove_type (t : MarkType) (set : list Mark) : list Mark :=
  filter (fun x => negb (MarkType_eqb (mark_type x) t)) set.

Definition addToSet (m : Mark) (set : list Mark) : list Mark :=
  insert_by_rank m (remove_type (mark_type m) set).

(** A node is a text node, a leaf of a leaf node type (size 1), or a node of
    a type with content (size 2 + the size of its content: one position for
    each of its two boundary tokens).  The document itself is such a node. *)
Inductive Node : Type :=
| Text (marks : list Mark) (text : string)
| Atom (name : string) (marks : list Mark)
| Elem (name : string) (marks : list Mark) (content : list Node).

Definition marks (n : Node) : list Mark :=
  match n with
  | Text m _ => m
  | Atom _ m => m
  | Elem _ m _ => m
  end.

(** [node.content]: text and leaf nodes have the empty fragment. *)
Definition content (n : Node) : list Node :=
  match n with
  | Elem _ _ c => c
  | _ => []
  end.

Fixpoint nodeSize (n : Node) : Z :=
  match n with
  | Text _ s => Z.of_nat (String.length s)
  | Atom _ _ => 1
  | Elem _ _ c =>
      2 + (fix sum (l : list Node) : Z :=
             match l with
             | [] => 0
             | x :: r => nodeSize x + sum r
             end) c
  end.

(** [fragment.size] *)
Fixpoint size (frag : list Node) : Z :=
  match frag with
  | [] => 0
  | x :: r => nodeSize x + size r
  end.

(** [fragment.forEach(f)]: [f] receives each child and its offset into the
    fragment; here [f] also threads the state the callback mutates. *)
Section ForEach.
Variable S : Type.
Variable f : Node -> Z -> S -> S.
Fixpoint forEach_from (frag : list Node) (p : Z) (s : S) : S :=
  match frag with
  | [] => s
  | child :: r => forEach_from r (p + nodeSize child) (f child p s)
  end.
Definition forEach (frag : list Node) (s : S) : S := forEach_from frag 0 s.
End ForEach.

(** [text.slice(from, to)] of a JS string, for [0 <= from]. *)
Definition text_slice (s : string) (from to : Z) : string :=
  substring (Z.to_nat from) (Z.to_nat (to - from)) s.

(** The loop of [Fragment.cut(from, to)]: children ending after [from] and
    starting before [to] are kept, the ones crossing a bound are cut
    themselves.  [cut_child] is [child.cut]. *)
Section CutLoop.
Variable cut_child : Node -> Z -> Z -> Node.
Fixpoint cut_loop (l : list Node) (pos from to : Z) : list Node :=
  match l with
  | [] => []
  | child :: r =>
      if pos <? to then
        let e := pos + nodeSize child in
        if from <? e then
          (if (pos <? from) || (to <? e) then
             match child with
             | Text _ s =>
                 cut_child child (Z.max 0 (from - pos))
                           (Z.min (Z.of_nat (String.length s)) (to - pos))
             | _ =>
                 cut_child child (Z.max 0 (from - pos - 1))
                           (Z.min (size (content child)) (to - pos - 1))
             end
           else child) :: cut_loop r e from to
        else cut_loop r e from to
      else []
  end.
End CutLoop.

(** [node.cut(from, to)] *)
Fixpoint node_cut (n : Node) (from to : Z) {struct n} : Node :=
  match n with
  | Text m s =>
      if (from =? 0) && (to =? Z.of_nat (String.length s)) then n
      else Text m (text_slice s from to)
  | Atom _ _ => n
  | Elem name m c =>
      if (from =? 0) && (to =? size c) then n
      else Elem name m (if from <? to then cut_loop node_cut c 0 from to else [])
  end.

(** [fragment.cut(from, to)] *)
Definition cut (frag : list Node) (from to : Z) : list Node :=
  if (from =? 0) && (to =? size frag) then frag
  else if from <? to then cut_loop node_cut frag 0 from to else [].

(** [Slice]: [slice.size = content.size - openStart - openEnd]. *)
Record Slice : Type := mkSlice {
  slice_content : list Node;
  openStart : Z;
  openEnd : Z
}.

Definition Slice_empty : Slice := mkSlice [] 0 0.

Definition slice_size (s : Slice) : Z :=
  size (slice_content s) - openStart s - openEnd s.

(** The depth of [doc.resolve(pos)] below a fragment: resolving descends into
    a child that is not a text node while the position is strictly inside
    it. *)
Section Descend.
Variable A : Type.
Variable inside : Node -> Z -> A.   (* the child and the position in its content *)
Variable here : A.
Fixpoint descend (l : list Node) (p pos : Z) : A :=
  match l with
  | [] => here
  | child :: r =>
      let e := p + nodeSize child in
      if (p <? pos) && (pos <? e) then
        match child with
        | Elem _ _ _ => inside child (pos - p - 1)
        | _ => here
        end
      else descend r e pos
  end.
End Descend.

Fixpoint depth_in (n : Node) (pos : Z) {struct n} : Z :=
  match n with
  | Elem _ _ c => descend (fun child q => 1 + depth_in child q) 0 c 0 pos
  | _ => 0
  end.

(** [node.slice(from, to)] for [from <> to], both positions in range: the
    content of the deepest node that holds both positions is cut, and the
    slice is open by the remaining depth of each end. *)
Fixpoint slice_in (n : Node) (from to : Z) {struct n} : Slice :=
  match n with
  | Elem _ _ c =>
      let flat := mkSlice (cut c from to) (depth_in n from) (depth_in n to) in
      (fix go (l : list Node) (p : Z) : Slice :=
         match l with
         | [] => flat
         | child :: r =>
             let e := p + nodeSize child in
             if (p <? from) && (from <? e) then
               match child with
               | Elem _ _ _ =>
                   if (p + 1 <=? to) && (to <=? e - 1)
                   then slice_in child (from - p - 1) (to - p - 1)
                   else flat
               | _ => flat
               end
             else go r e
         end) c 0
  | _ => mkSlice [] 0 0
  end.

(** [doc.slice(from, to)]: the empty slice when [from = to]; a [RangeError]
    ([None]) when a position does not resolve. *)
Definition slice (doc : Node) (from to : Z) : option Slice :=
  if from =? to then Some Slice_empty
  else if (0 <=? from) && (from <=? size (content doc))
          && (0 <=? to) && (to <=? size (content doc))
       then Some (slice_in doc from to)
       else None.

(** *** Flat indexing

    A position counts the tokens before it: a character of a text node, a
    leaf node, and the start and the end of a node with content are one token
    each.  The transaction calls address the document by position, so their
    effect is given on the token sequence. *)
Inductive Token : Type :=
| TOpen (name : string) (marks : list Mark)
| TClose
| TChar (c : ascii) (marks : list Mark)
| TAtom (name : string) (marks : list Mark).

Fixpoint node_tokens (n : Node) : list Token :=
  match n with
  | Text m s => map (fun c => TChar c m) (list_ascii_of_string s)
  | Atom name m => [TAtom name m]
  | Elem name m c =>
      TOpen name m
        :: (fix all (l : list Node) : list Token :=
              match l with
              | [] => []
              | x :: r => node_tokens x ++ all r
              end) c
        ++ [TClose]
  end.

Fixpoint tokens (frag : list Node) : list Token :=
  match frag with
  | [] => []
  | x :: r => node_tokens x ++ tokens r
  end.

(** The tokens of a slice: those of its content without the [openStart]
    first and the [openEnd] last ones. *)
Definition slice_tokens (s : Slice) : list Token :=
  let ts := skipn (Z.to_nat (openStart s)) (tokens (slice_content s)) in
  firstn (List.length ts - Z.to_nat (openEnd s)) ts.

(** Reading a token sequence back as a fragment.  [acc] holds the children
    read so far at the current depth, last first; adjacent characters with
    the same marks are one text node. *)
Definition push_char (c : ascii) (m : list Mark) (acc : list Node) : list Node :=
  match acc with
  | Text m' s :: r =>
      if marks_eqb m' m then Text m' (String.append s (String c "")) :: r
      else Text m (String c "") :: acc
  | _ => Text m (String c "") :: acc
  end.

Fixpoint parse (ts : list Token) (stack : list (string * list Mark * list Node))
         (acc : list Node) : option (list Node) :=
  match ts with
  | [] => match stack with [] => Some (rev acc) | _ => None end
  | TOpen name m :: r => parse r ((name, m, acc) :: stack) []
  | TClose :: r =>
      match stack with
      | (name, m, outer) :: st => parse r st (Elem name m (rev acc) :: outer)
      | [] => None
      end
  | TChar c m :: r => parse r stack (push_char c m acc)
  | TAtom name m :: r => parse r stack (Atom name m :: acc)
  end.

Definition of_tokens (ts : list Token) : option (list Node) := parse ts [] [].

(** A step flagged [structure] may only overwrite boundary tokens: closing
    ones, then opening ones. *)
Fixpoint only_opens (ts : list Token) : bool :=
  match ts with
  | [] => true
  | TOpen _ _ :: r => only_opens r
  | _ => false
  end.

Fixpoint closes_then_opens (ts : list Token) : bool :=
  match ts with
  | TClose :: r => closes_then_opens r
  | _ => only_opens ts
  end.

Definition between (A : Type) (from to : Z) (l : list A) : list A :=
  firstn (Z.to_nat (to - from)) (skipn (Z.to_nat from) l).

(** [doc.replace(from, to, slice)]: the tokens in [[from, to)] give way to the
    tokens of the slice, the open sides of the slice joining the nodes around
    it; [None] (a [ReplaceError] or [RangeError]) when a position is out of
    range or the tokens do not read back as a document.  Node types are not
    checked against a schema. *)
Definition replace (doc : Node) (from to : Z) (s : Slice) : option Node :=
  match doc with
  | Elem name m c =>
      if (0 <=? from) && (from <=? to) && (to <=? size c) then
        let ts := tokens c in
        match of_tokens (firstn (Z.to_nat from) ts ++ slice_tokens s
                           ++ skipn (Z.to_nat to) ts) with
        | Some c' => Some (Elem name m c')
        | None => None
        end
      else None
  | _ => None
  end.

(** The inline nodes in [[from, to)] get their mark set rewritten by [f];
    [tr.addMark] and [tr.removeMark] walk [doc.nodesBetween(from, to)], which
    fails when [to] is past the end of the document.  The schema is the
    host's and is not part of a [Node]: every leaf is taken to be inline and
    every parent to allow the two tracked marks.  The host leaves a leaf
    that is not inline alone, and [tr.addMark] also the inline nodes of a
    parent that does not allow the mark; characters are always inline, and
    [tr.removeMark] asks nothing of the parent. *)
Definition on_marks (f : list Mark -> list Mark) (t : Token) : Token :=
  match t with
  | TChar c m => TChar c (f m)
  | TAtom name m => TAtom name (f m)
  | _ => t
  end.

Fixpoint map_range (A : Type) (f : A -> A) (from to : Z) (pos : Z) (l : list A) : list A :=
  match l with
  | [] => []
  | x :: r =>
      (if (from <=? pos) && (pos <? to) then f x else x)
        :: map_range f from to (pos + 1) r
  end.

Definition remark (f : list Mark -> list Mark) (doc : Node) (from to : Z) : option Node :=
  match doc with
  | Elem name m c =>
      if to <=? size c then
        match of_tokens (map_range (on_marks f) from to 0 (tokens c)) with
        | Some c' => Some (Elem name m c')
        | None => None
        end
      else None
  | _ => None
  end.

(** [node.eq(other)] *)
Fixpoint Node_eqb (a b : Node) {struct a} : bool :=
  match a, b with
  | Text m s, Text m' s' => marks_eqb m m' && String.eqb s s'
  | Atom n m, Atom n' m' => String.eqb n n' && marks_eqb m m'
  | Elem n m c, Elem n' m' c' =>
      String.eqb n n' && marks_eqb m m' && list_eqb Node_eqb c c'
  | _, _ => false
  end.

(** Whether some character or leaf of the fragment carries both the
    Insertion and the Deletion mark. *)
Definition both_marks (m : list Mark) : bool :=
  has_mark insertion m && has_mark deletion m.

Definition token_marks (t : Token) : list Mark :=
  match t with
  | TChar _ m => m
  | TAtom _ m => m
  | _ => []
  end.

Definition carries_both (doc : Node) : bool :=
  existsb (fun t => both_marks (token_marks t)) (tokens (content doc)).

End Doc.

(* ================================================================== *)
(** ** Session state, host calls and exceptions *)
(* ================================================================== *)

Module Session.
Import Doc.

(** [TrackChangeStorage].  The callback is the host's function; it is known
    here by a name, and calling it is logged. *)
Definition Callback := nat.

Record Storage : Type := mkStorage {
  enabled : bool;
  dataOpUserId : string;
  dataOpUserNickname : string;
  onStatusChange : option Callback
}.

(** [RedlinesOptions] and [addStorage()]; an option left out is [None]. *)
Record RedlinesOptions : Type := mkOptions {
  opt_enabled : option bool;
  opt_onStatusChange : option Callback;
  opt_dataOpUserId : option string;
  opt_dataOpUserNickname : option string
}.

Definition addStorage (o : RedlinesOptions) : Storage :=
  mkStorage (match opt_enabled o with Some b => b | None => false end)
            (match opt_dataOpUserId o with Some x => x | None => ""%string end)
            (match opt_dataOpUserNickname o with Some x => x | None => ""%string end)
            (opt_onStatusChange o).

(** The calls the extension makes on a transaction. *)
Inductive Call : Type :=
| addMark (from to : Z) (m : Mark)
| removeMark (from to : Z) (t : MarkType)
| step (from to : Z) (s : Slice) (structure : bool)
| deleteRange (from to : Z)
| setSelection (pos : Z).

Inductive EditorCommand : Type := deleteSelection | blur | focus.

(** The closure handed to [setTimeout]. *)
Inductive Closure : Type := FocusRestore.

(** What the host sees, in order. *)
Inductive Event : Type :=
| StatusChange (cb : Callback) (status : bool)
| UpdateState (manual : bool) (calls : list Call) (newDoc : Node)
| Command (c : EditorCommand)
| SetTimeout (body : Closure) (ms : Z).

(** The editor, the module-level composition variables, the clock and the
    pending timers.  [clock k] is what the [k]-th reading of
    [new Date().getTime()] returns. *)
Record World : Type := mkWorld {
  w_doc : Node;
  w_selection : Z * Z;
  w_storage : Storage;
  composingStatus : Z;
  isStartChineseInput : bool;
  isDestroyed : bool;
  timers : list (Closure * Z);
  clock : nat -> Z;
  reads : nat;
  log : list Event
}.

Definition set_doc (d : Node) (w : World) : World :=
  mkWorld d (w_selection w) (w_storage w) (composingStatus w)
          (isStartChineseInput w) (isDestroyed w) (timers w) (clock w) (reads w) (log w).
Definition set_selection (x : Z * Z) (w : World) : World :=
  mkWorld (w_doc w) x (w_storage w) (composingStatus w)
          (isStartChineseInput w) (isDestroyed w) (timers w) (clock w) (reads w) (log w).
Definition set_storage (x : Storage) (w : World) : World :=
  mkWorld (w_doc w) (w_selection w) x (composingStatus w)
          (isStartChineseInput w) (isDestroyed w) (timers w) (clock w) (reads w) (log w).
Definition set_composition (status : Z) (started : bool) (w : World) : World :=
  mkWorld (w_doc w) (w_selection w) (w_storage w) status started
          (isDestroyed w) (timers w) (clock w) (reads w) (log w).
Definition set_timers (x : list (Closure * Z)) (w : World) : World :=
  mkWorld (w_doc w) (w_selection w) (w_storage w) (composingStatus w)
          (isStartChineseInput w) (isDestroyed w) x (clock w) (reads w) (log w).
Definition set_reads (n : nat) (w : World) : World :=
  mkWorld (w_doc w) (w_selection w) (w_storage w) (composingStatus w)
          (isStartChineseInput w) (isDestroyed w) (timers w) (clock w) n (log w).
Definition emit (e : Event) (w : World) : World :=
  mkWorld (w_doc w) (w_selection w) (w_storage w) (composingStatus w)
          (isStartChineseInput w) (isDestroyed w) (timers w) (clock w) (reads w)
          (log w ++ [e]).

(** Exceptions leave the hook at once; what was committed before stays. *)
Inductive Exn : Type := RangeError | TypeError | TransformError.

Inductive Res (A : Type) : Type :=
| Ok (a : A)
| Throw (e : Exn).
Arguments Ok {A} a.
Arguments Throw {A} e.

Definition M (A : Type) : Type := World -> World * Res A.

Definition ret (A : Type) (a : A) : M A := fun w => (w, Ok a).
Definition throw (A : Type) (e : Exn) : M A := fun w => (w, Throw e).
Definition bind (A B : Type) (m : M A) (k : A -> M B) : M B :=
  fun w => match m w with
           | (w', Ok a) => k a w'
           | (w', Throw e) => (w', Throw e)
           end.
Definition lift (A : Type) (r : Res A) : M A := fun w => (w, r).
Definition get : M World := fun w => (w, Ok w).
Definition modify (f : World -> World) : M unit := fun w => (f w, Ok tt).

Definition rbind (A B : Type) (r : Res A) (k : A -> Res B) : Res B :=
  match r with
  | Ok a => k a
  | Throw e => Throw e
  end.

Definition of_option (A : Type) (e : Exn) (o : option A) : Res A :=
  match o with
  | Some a => Ok a
  | None => Throw e
  end.

End Session.

Declare Scope session_scope.
Delimit Scope session_scope with session.
Notation "x <- m ;; k" := (Session.bind m (fun x => k))
  (at level 61, m at next level, right associativity) : session_scope.
Notation "m ;;; k" := (Session.bind m (fun _ => k))
  (at level 61, right associativity) : session_scope.

(* ================================================================== *)
(** ** The Redline Transformer: [onTransaction] *)
(* ================================================================== *)

Module Transformer.
Import Doc Session.
Local Open Scope session_scope.

Definition IME_STATUS_NORMAL : Z := 0.
Definition IME_STATUS_CONTINUE : Z := 2.

Definition compositionupdate (w : World) : World :=
  set_composition IME_STATUS_CONTINUE (isStartChineseInput w) w.

(** [Math.round(t / 1000 / 60) * 1000 * 60] for a clock reading [t] in
    milliseconds.  [Math.round] is the integer nearest to its argument, the
    upper one at a tie: [floor (x + 1/2)].  For an integer [t] this is
    [floor ((t + 30000) / 60000)]; the two floating-point divisions do not
    change it, since [t / 60000] is exact at a tie and is otherwise at least
    [1 / 60000] away from one. *)
Definition minute_of (t : Z) : Z := (t + 30000) / 60000 * 1000 * 60.

Definition getMinuteTime : M Z :=
  fun w => (set_reads (S (reads w)) w, Ok (minute_of (clock w (reads w)))).

(** Steps of an incoming transaction.  Only [ReplaceStep] is looked into. *)
Inductive Step : Type :=
| ReplaceStep (from to : Z) (slice : Slice) (structure : bool)
| OtherStep.

(** The incoming transaction as the hook reads it.  [docs] holds the document
    before each step.  [before_is_current] tells whether [transaction.before]
    is the very object [editor.state.tr.doc], an identity of objects that
    their values do not determine. *)
Record Transaction : Type := mkTransaction {
  docChanged : bool;
  trackManualChanged : bool;                 (* getMeta('trackManualChanged') *)
  history : bool;                            (* getMeta('history$') *)
  y_sync : option bool;                      (* getMeta('y-sync$'), its isChangeOrigin *)
  steps : list Step;
  docs : list Node;
  before : Node;
  doc : Node;
  selection_from : Z;
  before_is_current : bool
}.

(** A transaction under construction: the document it started from, its
    current document, and the calls made on it. *)
Record Transform : Type := mkTransform {
  t_before : Node;
  t_doc : Node;
  t_calls : list Call
}.

(** [editor.state.tr] *)
Definition state_tr (w : World) : Transform := mkTransform (w_doc w) (w_doc w) [].

Definition tr_addMark (t : Transform) (from to : Z) (m : Mark) : Res Transform :=
  match remark (addToSet m) (t_doc t) from to with
  | Some d => Ok (mkTransform (t_before t) d (t_calls t ++ [addMark from to m]))
  | None => Throw TypeError
  end.

Definition tr_removeMark (t : Transform) (from to : Z) (ty : MarkType) : Res Transform :=
  match remark (remove_type ty) (t_doc t) from to with
  | Some d => Ok (mkTransform (t_before t) d (t_calls t ++ [removeMark from to ty]))
  | None => Throw TypeError
  end.

(** [ReplaceStep.apply(doc)] *)
Definition ReplaceStep_apply (d : Node) (from to : Z) (s : Slice) (structure : bool)
  : option Node :=
  if structure && negb (closes_then_opens (between from to (tokens (content d))))
  then None
  else replace d from to s.

(** [tr.step(new ReplaceStep(from, to, slice, structure))] *)
Definition tr_step (t : Transform) (from to : Z) (s : Slice) (structure : bool)
  : Res Transform :=
  match ReplaceStep_apply (t_doc t) from to s structure with
  | Some d => Ok (mkTransform (t_before t) d (t_calls t ++ [step from to s structure]))
  | None => Throw TransformError
  end.

(** [editor.view.updateState(editor.state.apply(tr))]: the state refuses a
    transaction that did not start from its document.  The host also maps
    the selection through the steps of the transaction; that mapping is left
    out, the selection the hook ends with being the one [set_cursor] sets. *)
Definition commit (t : Transform) : M unit :=
  fun w =>
    if Node_eqb (t_before t) (w_doc w)
    then (emit (UpdateState false (t_calls t) (t_doc t)) (set_doc (t_doc t) w), Ok tt)
    else (w, Throw RangeError).

(** *** First pass: deleted-length accounting (lines 316-337) *)

(** The callback of [slice.content.forEach] at lines 323-329. *)
Definition count_node (node : Node) (_ : Z) (delCount : Z) : Z :=
  if has_mark insertion (marks node) then delCount else delCount + nodeSize node.

(** [delCount] of one [ReplaceStep] against [docs[_index]]. *)
Definition delCount_of (d : option Node) (from to : Z) : Res Z :=
  if from =? to then Ok 0
  else match d with
       | None => Throw TypeError
       | Some d =>
           match slice d from to with
           | Some s => Ok (forEach count_node (slice_content s) 0)
           | None => Throw RangeError
           end
       end.

Fixpoint first_pass (trdocs : list Node) (l : list Step) (index : nat)
         (posOffset : Z) (hasAddAndDelete : bool) : Res (Z * bool) :=
  match l with
  | [] => Ok (posOffset, hasAddAndDelete)
  | ReplaceStep from to s _ :: r =>
      rbind (delCount_of (nth_error trdocs index) from to) (fun delCount =>
        let newCount := slice_size s in
        first_pass trdocs r (S index) (posOffset + delCount)
                   (if negb (newCount =? 0) && negb (delCount =? 0) then true
                    else hasAddAndDelete))
  | OtherStep :: r => first_pass trdocs r (S index) posOffset hasAddAndDelete
  end.

(** *** Second pass: marking and deletion preservation (lines 349-418) *)

(** [step.invert(doc)] of a [ReplaceStep]. *)
Definition invert (d : option Node) (from to : Z) (s : Slice) : Res (Z * Z * Slice) :=
  match d with
  | None => Throw TypeError
  | Some d =>
      match slice d from to with
      | Some old => Ok (from, from + slice_size s, old)
      | None => Throw RangeError
      end
  end.

(** What [travelContent] mutates. *)
Record Travel : Type := mkTravel {
  skipSteps : list (Z * Z);          (* new ReplaceStep(from, to, Slice.empty) *)
  addedEmptyOffset : Z;
  reAddOffset : Z
}.

(** The leaf branch, lines 392-396. *)
Definition travel_leaf (node : Node) (start : Z) (st : Travel) : Travel :=
  if has_mark insertion (marks node) then
    let e := start + nodeSize node in
    mkTravel (skipSteps st ++ [(start - addedEmptyOffset st, e - addedEmptyOffset st)])
             (addedEmptyOffset st + nodeSize node)
             (reAddOffset st - nodeSize node)
  else st.

(** The callback of [content.forEach] in [travelContent]; [start] is
    [parentOffset + offset]. *)
Fixpoint travel_node (node : Node) (start : Z) (st : Travel) {struct node} : Travel :=
  match node with
  | Elem _ _ c =>
      if negb (size c =? 0)
      then forEach (fun child offset st' => travel_node child (start + offset) st') c st
      else travel_leaf node start st
  | _ => travel_leaf node start st
  end.

Definition travelContent (c : list Node) (parentOffset : Z) (st : Travel) : Travel :=
  forEach (fun node offset st' => travel_node node (parentOffset + offset) st') c st.

Fixpoint run_skipSteps (t : Transform) (l : list (Z * Z)) : Res Transform :=
  match l with
  | [] => Ok t
  | (from, to) :: r =>
      rbind (tr_step t from to Slice_empty false) (fun t' => run_skipSteps t' r)
  end.

(** The body of the second [allSteps.forEach] for a [ReplaceStep]; it returns
    the transaction under construction and the new [reAddOffset]. *)
Definition second_pass_step (trackChangeEnabled : bool) (d : option Node)
           (from to : Z) (s : Slice) (newChangeTr : Transform) (reAdd : Z)
  : M (Transform * Z) :=
  inv <- lift (invert d from to s) ;;
  let '(inv_from, _, inv_slice) := inv in
  w <- get ;;
  t1 <- (if negb (slice_size s =? 0) then
           date <- getMinuteTime ;;
           let insertionMark :=
             mkMark insertion (dataOpUserId (w_storage w))
                    (dataOpUserNickname (w_storage w)) (Some date) in
           let from' := from + reAdd in
           let to' := from + reAdd + slice_size s in
           lift (rbind (if trackChangeEnabled
                        then tr_addMark newChangeTr from' to' insertionMark
                        else tr_removeMark newChangeTr from' to' insertion)
                       (fun t => tr_removeMark t from' to' deletion))
         else ret newChangeTr) ;;
  r <- (if negb (from =? to) && trackChangeEnabled then
          let reAdd_from := inv_from + reAdd in
          let st := travelContent (slice_content inv_slice) inv_from
                                  (mkTravel [] 0 reAdd) in
          let reAdd' := reAddOffset st + slice_size inv_slice in
          t2 <- lift (tr_step t1 reAdd_from reAdd_from inv_slice false) ;;
          date <- getMinuteTime ;;
          let deletionMark :=
            mkMark deletion (dataOpUserId (w_storage w))
                   (dataOpUserNickname (w_storage w)) (Some date) in
          t3 <- lift (tr_addMark t2 reAdd_from (reAdd_from + slice_size inv_slice)
                                 deletionMark) ;;
          t4 <- lift (run_skipSteps t3 (skipSteps st)) ;;
          ret (t4, reAdd')
        else ret (t1, reAdd)) ;;
  commit (fst r) ;;;
  ret r.

Fixpoint second_pass (trackChangeEnabled : bool) (trdocs : list Node)
         (l : list Step) (index : nat) (newChangeTr : Transform) (reAdd : Z)
  : M unit :=
  match l with
  | [] => ret tt
  | ReplaceStep from to s _ :: r =>
      x <- second_pass_step trackChangeEnabled (nth_error trdocs index)
                            from to s newChangeTr reAdd ;;
      second_pass trackChangeEnabled trdocs r (S index) (fst x) (snd x)
  | OtherStep :: r =>
      second_pass trackChangeEnabled trdocs r (S index) newChangeTr reAdd
  end.

(** [TextSelection.create(doc, pos)] resolves [pos]; the selection-only
    transaction is then committed. *)
Definition set_cursor (pos : Z) : M unit :=
  fun w =>
    if (0 <=? pos) && (pos <=? size (content (w_doc w)))
    then (emit (UpdateState false [setSelection pos] (w_doc w))
               (set_selection (pos, pos) w), Ok tt)
    else (w, Throw RangeError).

Definition run_command (c : EditorCommand) : M unit := modify (emit (Command c)).

Definition setTimeout (body : Closure) (ms : Z) : M unit :=
  modify (fun w => emit (SetTimeout body ms) (set_timers (timers w ++ [(body, ms)]) w)).


Definition onTransaction (transaction : Transaction) : M unit :=
  w0 <- get ;;
  let storage := w_storage w0 in
  let isChineseStart :=
    isStartChineseInput w0 && (composingStatus w0 =? IME_STATUS_CONTINUE) in
  let isChineseInputting :=
    negb (isStartChineseInput w0) && (composingStatus w0 =? IME_STATUS_CONTINUE) in
  let isNormalInput := composingStatus w0 =? IME_STATUS_NORMAL in
  modify (set_composition IME_STATUS_NORMAL false) ;;;
  if negb (docChanged transaction) then ret tt else
  if trackManualChanged transaction then ret tt else
  if history transaction then ret tt else
  if match y_sync transaction with Some isChangeOrigin => isChangeOrigin | None => false end
  then ret tt else
  if (List.length (steps transaction) =? 0)%nat then ret tt else
  let isThisTrApplied := negb (before_is_current transaction) in
  let trackChangeEnabled := enabled storage in
  let allSteps := steps transaction in
  let currentNewPos := selection_from transaction in
  acc <- lift (first_pass (docs transaction) allSteps 0 0 false) ;;
  let '(counted, hasAddAndDelete) := acc in
  let posOffset :=
    if isNormalInput then (if negb hasAddAndDelete then 0 else counted)
    else if isChineseStart then (if negb hasAddAndDelete then 0 else counted)
    else if isChineseInputting then 0
    else counted in
  let newChangeTr :=
    if isThisTrApplied then state_tr w0
    else mkTransform (before transaction) (doc transaction) [] in
  second_pass trackChangeEnabled (docs transaction) allSteps 0 newChangeTr 0 ;;;
  let finalNewPos := if trackChangeEnabled then currentNewPos + posOffset else currentNewPos in
  (if trackChangeEnabled then set_cursor finalNewPos else ret tt) ;;;
  if isChineseStart && hasAddAndDelete && trackChangeEnabled then
    run_command deleteSelection ;;;
    run_command blur ;;;
    setTimeout FocusRestore 100
  else ret tt.

End Transformer.

(* ================================================================== *)
(** ** The Accept/Reject Resolver: [changeTrack], and the commands *)
(* ================================================================== *)

Module Resolver.
Import Doc Session.

Inductive TRACK_COMMAND_TYPE : Type :=
| TRACK_COMMAND_ACCEPT
| TRACK_COMMAND_ACCEPT_ALL
| TRACK_COMMAND_REJECT
| TRACK_COMMAND_REJECT_ALL.

Definition op_eqb (a b : TRACK_COMMAND_TYPE) : bool :=
  match a, b with
  | TRACK_COMMAND_ACCEPT, TRACK_COMMAND_ACCEPT => true
  | TRACK_COMMAND_ACCEPT_ALL, TRACK_COMMAND_ACCEPT_ALL => true
  | TRACK_COMMAND_REJECT, TRACK_COMMAND_REJECT => true
  | TRACK_COMMAND_REJECT_ALL, TRACK_COMMAND_REJECT_ALL => true
  | _, _ => false
  end.

(** [MarkRange] of the host: a mark and the range that carries it. *)
Record MarkRange : Type := mkMarkRange {
  mark : Mark;
  range_from : Z;
  range_to : Z
}.

Definition range_type (r : MarkRange) : MarkType := mark_type (mark r).

(** The filter at line 145. *)
Definition is_tracked (r : MarkRange) : bool :=
  MarkType_eqb (range_type r) deletion || MarkType_eqb (range_type r) insertion.

(** Whether a range is confirmed (its marks stripped) rather than discarded
    (its content removed): [isAcceptInsert || isRejectDelete]. *)
Definition keeps (opType : TRACK_COMMAND_TYPE) (r : MarkRange) : bool :=
  let isAcceptInsert :=
    op_eqb opType TRACK_COMMAND_ACCEPT && MarkType_eqb (range_type r) insertion in
  let isRejectDelete :=
    op_eqb opType TRACK_COMMAND_REJECT && MarkType_eqb (range_type r) deletion in
  isAcceptInsert || isRejectDelete.

(** The callback of [markRanges.forEach], lines 153-163, on the running
    [offset] and the calls made on [currentTr] so far. *)
Definition resolve_range (opType : TRACK_COMMAND_TYPE) (markRange : MarkRange)
           (st : Z * list Call) : Z * list Call :=
  let '(offset, calls) := st in
  if keeps opType markRange then
    (offset,
     calls ++ [removeMark (range_from markRange - offset) (range_to markRange - offset) insertion;
               removeMark (range_from markRange - offset) (range_to markRange - offset) deletion])
  else
    (offset + (range_to markRange - range_from markRange),
     calls ++ [deleteRange (range_from markRange - offset) (range_to markRange - offset)]).

Definition resolve_all (opType : TRACK_COMMAND_TYPE) (markRanges : list MarkRange)
           (st : Z * list Call) : Z * list Call :=
  fold_left (fun acc r => resolve_range opType r acc) markRanges st.

(** The queries and the transaction semantics [changeTrack] takes from the
    host editor. *)
Section Host.

(** [isMarkActive(state, name)] *)
Variable isMarkActive : World -> MarkType -> bool.
(** [getMarkRange(state.selection.$from, type)]; [None] is [undefined]. *)
Variable getMarkRange : World -> MarkType -> option (Z * Z).
(** [getMarksBetween(from, to, doc)] *)
Variable getMarksBetween : Z -> Z -> Node -> list MarkRange.
(** [tr.steps.length] and [tr.doc] once the calls were made on [param.tr]. *)
Variable steps_length : Node -> list Call -> nat.
Variable doc_after : Node -> list Call -> Node.

(** Lines 126-143: the mark ranges in scope and the normalised command. *)
Definition scope (opType : TRACK_COMMAND_TYPE) (w : World)
  : list MarkRange * TRACK_COMMAND_TYPE :=
  let from := fst (w_selection w) in
  let to := snd (w_selection w) in
  if (op_eqb opType TRACK_COMMAND_ACCEPT || op_eqb opType TRACK_COMMAND_REJECT)
     && (from =? to) then
    let isInsertBeforeCursor := isMarkActive w insertion in
    let isDeleteBeforeCursor := isMarkActive w deletion in
    let leftRange :=
      if isInsertBeforeCursor then getMarkRange w insertion
      else if isDeleteBeforeCursor then getMarkRange w deletion
      else None in
    (match leftRange with
     | Some (l, r) => getMarksBetween l r (w_doc w)
     | None => []
     end, opType)
  else if op_eqb opType TRACK_COMMAND_ACCEPT_ALL
          || op_eqb opType TRACK_COMMAND_REJECT_ALL then
    (getMarksBetween 0 (size (content (w_doc w))) (w_doc w),
     if op_eqb opType TRACK_COMMAND_ACCEPT_ALL
     then TRACK_COMMAND_ACCEPT else TRACK_COMMAND_REJECT)
  else (getMarksBetween from to (w_doc w), opType).

(** [changeTrack(opType, param)]; it always returns [false], so only its
    effect is kept.  [param.dispatch] commits the transaction; the host then
    maps the selection through the committed steps, which is left out here:
    [w_selection] after a commit is not the host's. *)
Definition changeTrack (opType : TRACK_COMMAND_TYPE) (w : World) : World :=
  let '(found, opType') := scope opType w in
  let markRanges := filter is_tracked found in
  match markRanges with
  | [] => w
  | _ =>
      let '(_, calls) := resolve_all opType' markRanges (0, []) in
      if negb (steps_length (w_doc w) calls =? 0)%nat then
        let d := doc_after (w_doc w) calls in
        emit (UpdateState true calls d) (set_doc d w)
      else w
  end.

Definition acceptChange := changeTrack TRACK_COMMAND_ACCEPT.
Definition acceptAllChanges := changeTrack TRACK_COMMAND_ACCEPT_ALL.
Definition rejectChange := changeTrack TRACK_COMMAND_REJECT.
Definition rejectAllChanges := changeTrack TRACK_COMMAND_REJECT_ALL.

End Host.

End Resolver.

Module Commands.
Import Doc Session.

Definition call_onStatusChange (status : bool) (w : World) : World :=
  match onStatusChange (w_storage w) with
  | Some cb => emit (StatusChange cb status) w
  | None => w
  end.

(** [onCreate()] *)
Definition onCreate (w : World) : World :=
  call_onStatusChange (enabled (w_storage w)) w.

Definition with_enabled (b : bool) (s : Storage) : Storage :=
  mkStorage b (dataOpUserId s) (dataOpUserNickname s) (onStatusChange s).

Definition setTrackChangeStatus (status : bool) (w : World) : World :=
  call_onStatusChange status (set_storage (with_enabled status (w_storage w)) w).

Definition toggleTrackChangeStatus (w : World) : World :=
  let w' := set_storage (with_enabled (negb (enabled (w_storage w))) (w_storage w)) w in
  call_onStatusChange (enabled (w_storage w')) w'.

Definition getTrackChangeStatus (w : World) : bool := enabled (w_storage w).

Definition updateOpUserOption (opUserId opUserNickname : string) (w : World) : World :=
  set_storage (mkStorage (enabled (w_storage w)) opUserId opUserNickname
                         (onStatusChange (w_storage w))) w.

End Commands.

(* ================================================================== *)
(** ** The vocabulary of the properties *)
(* ================================================================== *)

Module Spec.
Import Doc Session Transformer Resolver.

(** The five reasons of lines 299-304 to leave a transaction alone. *)
Definition gated (tr : Transaction) : Prop :=
  docChanged tr = false
  \/ trackManualChanged tr = true
  \/ history tr = true
  \/ y_sync tr = Some true
  \/ steps tr = [].

(** A range is confirmed when the command is Accept and the range an
    Insertion, or the command is Reject and the range a Deletion. *)
Definition confirms (op : TRACK_COMMAND_TYPE) (r : MarkRange) : Prop :=
  (op = TRACK_COMMAND_ACCEPT /\ range_type r = insertion)
  \/ (op = TRACK_COMMAND_REJECT /\ range_type r = deletion).

(** The length the specification asks for: the leaves of the document in
    [[from, to)], one position per character or leaf node, without those
    that carry the Insertion mark. *)
Definition counted_leaf (t : Token) : bool :=
  match t with
  | TChar _ m => negb (has_mark insertion m)
  | TAtom _ m => negb (has_mark insertion m)
  | _ => false
  end.

Definition deletedLength (d : Node) (from to : Z) : Z :=
  Z.of_nat (List.length (filter counted_leaf (between from to (tokens (content d))))).

(** Rounding a clock reading down to the minute. *)
Definition minute_floor (t : Z) : Z := t / 60000 * 60000.

(** Induction on nodes, with the property available for every child. *)
Section NodeInduction.
Variable P : Node -> Prop.
Hypothesis P_Text : forall m s, P (Text m s).
Hypothesis P_Atom : forall name m, P (Atom name m).
Hypothesis P_Elem : forall name m c, Forall P c -> P (Elem name m c).
Fixpoint Node_induction (n : Node) : P n :=
  match n with
  | Text m s => P_Text m s
  | Atom name m => P_Atom name m
  | Elem name m c =>
      P_Elem name m
        ((fix all (l : list Node) : Forall P l :=
            match l with
            | [] => Forall_nil P
            | x :: r => Forall_cons x (Node_induction x) (all r)
            end) c)
  end.
End NodeInduction.

(** The leaves of a fragment are its nodes without content.  [leaves_size
    keep] adds up the sizes of the leaves whose marks satisfy [keep]. *)
Section Leaves.
Variable keep : list Mark -> bool.
Fixpoint leaves_of_node (n : Node) : Z :=
  match n with
  | Elem _ m c =>
      if negb (size c =? 0) then
        (fix sum (l : list Node) : Z :=
           match l with
           | [] => 0
           | x :: r => leaves_of_node x + sum r
           end) c
      else if keep m then nodeSize n else 0
  | _ => if keep (marks n) then nodeSize n else 0
  end.
Fixpoint leaves_size (c : list Node) : Z :=
  match c with
  | [] => 0
  | x :: r => leaves_of_node x + leaves_size r
  end.
End Leaves.

(** A node without content, as [travelContent] tells leaves. *)
Definition is_leaf (n : Node) : bool := size (content n) =? 0.

(** The discarded content of an inverted step: its leaves that carry the
    Insertion mark; and its retained leaves: all the others. *)
Definition discarded_size (c : list Node) : Z := leaves_size (has_mark insertion) c.
Definition retained_size (c : list Node) : Z :=
  leaves_size (fun m => negb (has_mark insertion m)) c.

(** A call is stamped when the mark it adds is dated by [minute_of] of one of
    the clock readings [lo .. hi - 1]. *)
Definition stamped (clk : nat -> Z) (lo hi : nat) (c : Call) : Prop :=
  match c with
  | addMark _ _ m =>
      exists k, (lo <= k < hi)%nat /\ data_op_date m = Some (minute_of (clk k))
  | _ => True
  end.

Definition event_stamped (clk : nat -> Z) (lo hi : nat) (e : Event) : Prop :=
  match e with
  | UpdateState _ calls _ => Forall (stamped clk lo hi) calls
  | _ => True
  end.

(** [w'] comes after [w]: same clock, no reading undone, and the log grown by
    stamped events only. *)
Definition extends (lo : nat) (w w' : World) : Prop :=
  clock w' = clock w
  /\ (reads w <= reads w')%nat
  /\ exists new, log w' = log w ++ new
                 /\ Forall (event_stamped (clock w) lo (reads w')) new.

(** Running [m] from [w] extends [w] and, when it returns, establishes [Q]. *)
Definition sound (lo : nat) (A : Type) (m : M A) (w : World)
           (Q : A -> World -> Prop) : Prop :=
  extends lo w (fst (m w))
  /\ match snd (m w) with
     | Ok a => Q a (fst (m w))
     | Throw _ => True
     end.

(** The calls of a transaction under construction are stamped. *)
Definition Inv (lo : nat) (t : Transform) (w : World) : Prop :=
  Forall (stamped (clock w) lo (reads w)) (t_calls t) /\ (lo <= reads w)%nat.

(** *** Vocabulary of the further properties *)

(** The tokens already read when [parse] is at [stack] and [acc]. *)
Fixpoint read_so_far (stack : list (string * list Mark * list Node))
         (acc : list Node) : list Token :=
  match stack with
  | [] => tokens (rev acc)
  | (name, m, outer) :: st => read_so_far st outer ++ TOpen name m :: tokens (rev acc)
  end.

(** [t'] is [t] with some of its marks gone, no mark other than an Insertion
    or a Deletion among them, and none added. *)
Definition tracked (ty : MarkType) : bool :=
  MarkType_eqb ty insertion || MarkType_eqb ty deletion.

Definition fades (t t' : Token) : Prop :=
  t' = on_marks (fun _ => token_marks t') t
  /\ (forall m, In m (token_marks t') -> In m (token_marks t))
  /\ (forall m, In m (token_marks t) -> tracked (mark_type m) = false ->
                In m (token_marks t')).

(** [d'] is [d] with the same nodes and text, some Insertion or Deletion
    marks removed. *)
Definition demarked (d d' : Node) : Prop :=
  Forall2 fades (tokens (content d)) (tokens (content d')).

(** A call the hook may make on a transaction in a session with storage
    [st]: marks are added, content re-inserted or removed and the selection
    set only with tracking on; an added mark is an Insertion or a Deletion
    with the session's attribution; only these two kinds are removed. *)
Definition call_by (st : Storage) (c : Call) : Prop :=
  match c with
  | addMark _ _ m =>
      enabled st = true
      /\ (mark_type m = insertion \/ mark_type m = deletion)
      /\ data_op_user_id m = dataOpUserId st
      /\ data_op_user_nickname m = dataOpUserNickname st
  | removeMark _ _ ty => ty = insertion \/ ty = deletion
  | step _ _ _ _ => enabled st = true
  | setSelection _ => enabled st = true
  | deleteRange _ _ => False
  end.

Definition event_by (st : Storage) (e : Event) : Prop :=
  match e with
  | UpdateState manual calls _ => manual = false /\ Forall (call_by st) calls
  | StatusChange _ _ => False
  | Command _ => enabled st = true
  | SetTimeout _ _ => enabled st = true
  end.

(** What the hook leaves alone between two worlds.  With [applied] the
    transaction under construction started from the editor's document. *)
Definition follows (applied : bool) (w w' : World) : Prop :=
  w_storage w' = w_storage w
  /\ isDestroyed w' = isDestroyed w
  /\ clock w' = clock w
  /\ composingStatus w' = composingStatus w
  /\ isStartChineseInput w' = isStartChineseInput w
  /\ (exists new, log w' = log w ++ new /\ Forall (event_by (w_storage w)) new)
  /\ (enabled (w_storage w) = false ->
      w_selection w' = w_selection w
      /\ timers w' = timers w
      /\ (applied = true -> demarked (w_doc w) (w_doc w'))).

(** Running [m] from [w] stays within [Rel] and, when it returns, gives
    [Q]. *)
Definition holds (Rel : World -> World -> Prop) (A : Type) (m : M A) (w : World)
           (Q : A -> World -> Prop) : Prop :=
  Rel w (fst (m w))
  /\ match snd (m w) with
     | Ok a => Q a (fst (m w))
     | Throw _ => True
     end.



(** A step that removes nothing: a range replacement of an empty range, or a
    step of another kind. *)
Definition inserts_only (st : Step) : Prop :=
  match st with
  | ReplaceStep from to _ _ => from = to
  | OtherStep => True
  end.

(** The total length of a list of mark ranges. *)
Fixpoint total_length (l : list MarkRange) : Z :=
  match l with
  | [] => 0
  | r :: rest => (range_to r - range_from r) + total_length rest
  end.

(** Mark ranges in document order that do not overlap, none before [lo]. *)
Fixpoint ordered (lo : Z) (l : list MarkRange) : Prop :=
  match l with
  | [] => True
  | r :: rest =>
      lo <= range_from r /\ range_from r <= range_to r /\ ordered (range_to r) rest
  end.

(** A call the resolver may make: it strips the Insertion or the Deletion
    mark from a range or deletes a range, within the document. *)
Definition resolver_call (c : Call) : Prop :=
  match c with
  | removeMark from to ty => (ty = insertion \/ ty = deletion) /\ 0 <= from <= to
  | deleteRange from to => 0 <= from <= to
  | _ => False
  end.

(** The positions a list of skip steps removes. *)
Fixpoint removed_length (l : list (Z * Z)) : Z :=
  match l with
  | [] => 0
  | (from, to) :: rest => (to - from) + removed_length rest
  end.

(** What [travelContent] adds to the skip steps and to [addedEmptyOffset]. *)
Definition travel_grows (st st' : Travel) (by_size : Z) : Prop :=
  addedEmptyOffset st' = addedEmptyOffset st + by_size
  /\ removed_length (skipSteps st') = removed_length (skipSteps st) + by_size
  /\ (Forall (fun x => fst x <= snd x) (skipSteps st) ->
      Forall (fun x => fst x <= snd x) (skipSteps st')).

(** The transaction under construction in a world. *)
Definition built (applied : bool) (w : World) (t : Transform) : Prop :=
  Forall (call_by (w_storage w)) (t_calls t)
  /\ (enabled (w_storage w) = false -> applied = true ->
      demarked (w_doc w) (t_doc t)).

End Spec.

(* ================================================================== *)
(** ** Concrete documents and sessions used below *)
(* ================================================================== *)

Module Scenarios.
Import Doc Session Transformer Resolver.

Definition paragraph (c : list Node) : Node := Elem "paragraph" [] c.
Definition blockquote (c : list Node) : Node := Elem "blockquote" [] c.
Definition document (c : list Node) : Node := Elem "doc" [] c.

Definition ann : Storage := mkStorage true "u1" "Ann" None.
Definition by_bob : Mark := mkMark insertion "u2" "Bob" (Some 60000).

(** A session on [d] with tracking on, nothing composed, the caret at [pos]
    and a clock that stands at [now]. *)
Definition session (d : Node) (pos : Z) (now : Z) : World :=
  mkWorld d (pos, pos) ann 0 false false [] (fun _ => now) 0 [].

(** An applied transaction of one step. *)
Definition one_step (st : Step) (d_before d_after : Node) (pos : Z) : Transaction :=
  mkTransaction true false false None [st] [d_before] d_before d_after pos false.

(** A host stand-in for the resolver: it answers the three queries with
    fixed values. *)
Definition fixed_active (ins_active del_active : bool) (_ : World) (t : MarkType) : bool :=
  match t with
  | insertion => ins_active
  | deletion => del_active
  | other_mark _ => false
  end.

Definition fixed_range (ins_range del_range : option (Z * Z)) (_ : World) (t : MarkType)
  : option (Z * Z) :=
  match t with
  | insertion => ins_range
  | deletion => del_range
  | other_mark _ => None
  end.

(** Deleting across a block quote: the selection runs from the end of the
    first paragraph to the start of the last one. *)
Definition nested_before : Node :=
  document [paragraph [Text [] "a"];
            blockquote [paragraph [Text [] "Y"; Text [by_bob] "X"]];
            paragraph [Text [] "b"]].
Definition nested_after : Node := document [paragraph [Text [] "ab"]].
Definition nested_delete : Transaction :=
  one_step (ReplaceStep 2 10 Slice_empty false) nested_before nested_after 2.

(** The same selection, replaced by a typed "Z". *)
Definition nested_typed_after : Node := document [paragraph [Text [] "aZb"]].
Definition nested_replace : Transaction :=
  one_step (ReplaceStep 2 10 (mkSlice [Text [] "Z"] 0 0) false)
           nested_before nested_typed_after 3.

(** Typing "hi" into an empty paragraph. *)
Definition typed_before : Node := document [paragraph []].
Definition typed_after : Node := document [paragraph [Text [] "hi"]].
Definition typed : Transaction :=
  one_step (ReplaceStep 1 1 (mkSlice [Text [] "hi"] 0 0) false) typed_before typed_after 3.

(** Replacing "b" by "c" in "ab" as a composition starts. *)
Definition composed_before : Node := document [paragraph [Text [] "ab"]].
Definition composed_after : Node := document [paragraph [Text [] "ac"]].
Definition composed : Transaction :=
  one_step (ReplaceStep 2 3 (mkSlice [Text [] "c"] 0 0) false)
           composed_before composed_after 3.

(** Deleting "abX" from "abXc", where "X" is a pending insertion. *)
Definition flat_before : Node :=
  document [paragraph [Text [] "ab"; Text [by_bob] "X"; Text [] "c"]].
Definition flat_after : Node := document [paragraph [Text [] "c"]].
Definition flat_delete : Transaction :=
  one_step (ReplaceStep 1 4 Slice_empty false) flat_before flat_after 1.

(** The same typing, replayed by the history plugin. *)
Definition redo_typed : Transaction :=
  mkTransaction true false true None (steps typed) (docs typed)
                typed_before typed_after 3 false.

(** A session that reports status changes to callback 7, tracking off. *)
Definition reporting : World :=
  mkWorld typed_before (1, 1) (mkStorage false "" "" (Some 7%nat)) 0 false false []
          (fun _ => 0) 0 [].

(** A transaction of one step that is no range replacement, such as the
    toggling of a bold mark. *)
Definition bolding : Transaction :=
  mkTransaction true false false None [OtherStep] [typed_after] typed_after typed_after
                3 false.

(** The session of [session] with tracking off. *)
Definition session_off (d : Node) (pos : Z) (now : Z) : World :=
  mkWorld d (pos, pos) (mkStorage false "u1" "Ann" None) 0 false false []
          (fun _ => now) 0 [].

(** Two deletions in one transaction: "a", then "c", from "abcd". *)
Definition abcd : Node := document [paragraph [Text [] "abcd"]].
Definition bcd : Node := document [paragraph [Text [] "bcd"]].
Definition bd : Node := document [paragraph [Text [] "bd"]].

(** Mark ranges: a pending deletion at [2, 5), a pending insertion at [7, 9). *)
Definition del_2_5 : MarkRange := mkMarkRange (mkMark deletion "u1" "Ann" (Some 0)) 2 5.
Definition ins_7_9 : MarkRange := mkMarkRange (mkMark insertion "u1" "Ann" (Some 0)) 7 9.

(** A host whose [getMarksBetween] finds one bold range over what it is
    asked for. *)
Definition bold_between (l r : Z) (_ : Node) : list MarkRange :=
  [mkMarkRange (mkMark (other_mark "bold") "" "" None) l r].

End Scenarios.

(* ================================================================== *)
(** ** Properties *)
(* ================================================================== *)

Import Doc Session Spec.

(** A conjunction of closed equations and inequations, each settled by
    evaluation. *)
Ltac by_running :=
  cbv zeta; repeat match goal with |- _ /\ _ => split end; vm_compute;
  first [reflexivity | discriminate].

(** *** The interception gate *)

Section Gate.
Import Transformer.

Lemma gated_returns tr w :
  gated tr ->
  onTransaction tr w = (set_composition IME_STATUS_NORMAL false w, Ok tt).
Proof.
  intros G. unfold onTransaction, bind, get, modify, ret.
  destruct (docChanged tr) eqn:E1; cbn [negb]; [|reflexivity].
  destruct (trackManualChanged tr) eqn:E2; [reflexivity|].
  destruct (history tr) eqn:E3; [reflexivity|].
  destruct (y_sync tr) as [[|]|] eqn:E4; [reflexivity| |];
    (destruct (steps tr) eqn:E5; [reflexivity|]);
    destruct G as [G|[G|[G|[G|G]]]]; congruence.
Qed.

(** C3: a transaction that changes no content, or is flagged as a manual
    accept/reject result, or is an undo/redo, or carries the remote-sync
    origin flag, or has no steps, is passed through: the hook returns
    normally, commits nothing (the log of host calls, the pending timers and
    the selection are as before) and the document, hence its marks, is
    unchanged - whatever the storage, so whatever the tracking status. *)
Theorem gate_passes_through (tr : Transaction) (w : World) :
  gated tr ->
  let w' := fst (onTransaction tr w) in
  snd (onTransaction tr w) = Ok tt
  /\ log w' = log w
  /\ w_doc w' = w_doc w
  /\ w_selection w' = w_selection w
  /\ timers w' = timers w
  /\ w_storage w' = w_storage w.
Proof.
  intros G. rewrite (gated_returns w G). cbn. repeat split.
Qed.

End Gate.

(** *** The commands on the tracking status *)

Section Status.
Import Commands.

(** C9: with a status-change callback configured, [onCreate] calls it once
    with the initial [enabled]; [setTrackChangeStatus b] stores [b] and calls
    it with [b], also when [b] is the value already stored; and
    [toggleTrackChangeStatus] stores the negation and calls it with that. *)
Theorem status_callback_fires (w : World) (cb : Callback) :
  onStatusChange (w_storage w) = Some cb ->
  log (onCreate w) = log w ++ [StatusChange cb (enabled (w_storage w))]
  /\ (forall b,
        log (setTrackChangeStatus b w) = log w ++ [StatusChange cb b]
        /\ enabled (w_storage (setTrackChangeStatus b w)) = b)
  /\ log (setTrackChangeStatus (enabled (w_storage w)) w)
     = log w ++ [StatusChange cb (enabled (w_storage w))]
  /\ log (toggleTrackChangeStatus w)
     = log w ++ [StatusChange cb (negb (enabled (w_storage w)))]
  /\ enabled (w_storage (toggleTrackChangeStatus w)) = negb (enabled (w_storage w)).
Proof.
  intros H.
  unfold onCreate, setTrackChangeStatus, toggleTrackChangeStatus, call_onStatusChange.
  cbn. rewrite H. cbn. repeat split.
Qed.

End Status.

(** *** The resolver *)

Section ResolverFacts.
Import Resolver.

Lemma keeps_confirms op r : keeps op r = true <-> confirms op r.
Proof.
  unfold keeps, confirms.
  destruct op, (range_type r) as [| |n]; cbn; split; intros H;
    try discriminate; try reflexivity; auto;
    destruct H as [[H1 H2]|[H1 H2]]; discriminate.
Qed.

Lemma resolve_all_snoc op pre r st :
  resolve_all op (pre ++ [r]) st = resolve_range op r (resolve_all op pre st).
Proof. unfold resolve_all. now rewrite fold_left_app. Qed.

Lemma resolve_all_app op pre post st :
  resolve_all op (pre ++ post) st = resolve_all op post (resolve_all op pre st).
Proof. unfold resolve_all. now rewrite fold_left_app. Qed.

(** C4: the ranges are resolved from left to right, starting with a shrink
    of 0.  With [shrink] the offset reached after the ranges [pre], the next
    range [r] is handled at [[from - shrink, to - shrink)]: when it is
    confirmed, both marks are stripped there and the shrink stays; otherwise
    the range is deleted and the shrink grows by [to - from]. *)
Theorem resolve_next_range (op : TRACK_COMMAND_TYPE) (pre : list MarkRange)
        (r : MarkRange) :
  let shrink := fst (resolve_all op pre (0, [])) in
  let calls := snd (resolve_all op pre (0, [])) in
  let from := range_from r - shrink in
  let to := range_to r - shrink in
  resolve_all op [] (0, []) = (0, [])
  /\ (confirms op r ->
      resolve_all op (pre ++ [r]) (0, [])
      = (shrink, calls ++ [removeMark from to insertion; removeMark from to deletion]))
  /\ (~ confirms op r ->
      resolve_all op (pre ++ [r]) (0, [])
      = (shrink + (range_to r - range_from r), calls ++ [deleteRange from to])).
Proof.
  cbn zeta. split; [reflexivity|].
  rewrite resolve_all_snoc.
  destruct (resolve_all op pre (0, [])) as [shrink calls]. cbn [fst snd].
  unfold resolve_range.
  split; intros H.
  - apply keeps_confirms in H. now rewrite H.
  - destruct (keeps op r) eqn:K; [|reflexivity].
    exfalso. apply H. now apply keeps_confirms.
Qed.

Section AnyHost.
Variable isMarkActive : World -> MarkType -> bool.
Variable getMarkRange : World -> MarkType -> option (Z * Z).
Variable getMarksBetween : Z -> Z -> Node -> list MarkRange.
Variable steps_length : Node -> list Call -> nat.
Variable doc_after : Node -> list Call -> Node.

Let scope := scope isMarkActive getMarkRange getMarksBetween.
Let changeTrack :=
  changeTrack isMarkActive getMarkRange getMarksBetween steps_length doc_after.

Lemma filter_nothing_tracked (l : list MarkRange) :
  (forall r, In r l -> range_type r <> insertion /\ range_type r <> deletion) ->
  filter is_tracked l = [].
Proof.
  induction l as [|x l IH]; intros H; [reflexivity|].
  cbn [filter]. destruct (H x (or_introl eq_refl)) as [Hi Hd].
  unfold is_tracked. destruct (range_type x); try congruence.
  cbn. apply IH. intros r Hr. apply H. now right.
Qed.

(** C7: when the ranges in scope hold no Insertion and no Deletion range,
    the command changes nothing: no transaction is committed and the
    editor, its document included, is as before. *)
Theorem resolve_nothing_tracked (op : TRACK_COMMAND_TYPE) (w : World) :
  (forall r, In r (fst (scope op w)) ->
             range_type r <> insertion /\ range_type r <> deletion) ->
  changeTrack op w = w.
Proof.
  intros H. unfold changeTrack, Resolver.changeTrack.
  fold (scope op w). destruct (scope op w) as [found op'].
  cbn [fst] in H. now rewrite (filter_nothing_tracked _ H).
Qed.

(** C10: for accept or reject at a collapsed caret, the scope is that of
    the Insertion mark's range whenever an Insertion mark is active, also
    when a Deletion mark is active too; the Deletion mark's range is used
    when a Deletion mark is active and no Insertion mark is. *)
Theorem caret_scope_prefers_insertion (op : TRACK_COMMAND_TYPE) (w : World) :
  op = TRACK_COMMAND_ACCEPT \/ op = TRACK_COMMAND_REJECT ->
  fst (w_selection w) = snd (w_selection w) ->
  (isMarkActive w insertion = true ->
   fst (scope op w)
   = match getMarkRange w insertion with
     | Some (l, r) => getMarksBetween l r (w_doc w)
     | None => []
     end)
  /\ (isMarkActive w insertion = false ->
      isMarkActive w deletion = true ->
      fst (scope op w)
      = match getMarkRange w deletion with
        | Some (l, r) => getMarksBetween l r (w_doc w)
        | None => []
        end).
Proof.
  intros Hop Hsel. unfold scope, Resolver.scope.
  rewrite Hsel, Z.eqb_refl.
  destruct Hop as [-> | ->]; cbn [op_eqb orb andb];
    split; intros Hi; try intros Hd; rewrite Hi; try rewrite Hd;
    destruct (getMarkRange w _) as [[l r]|]; reflexivity.
Qed.

End AnyHost.

End ResolverFacts.

(** *** The transformer on concrete transactions *)

Section Runs.
Import Transformer Scenarios.

(** The scenario transactions are what their step makes of the document
    before it. *)
Lemma scenarios_consistent :
  replace nested_before 2 10 Slice_empty = Some nested_after
  /\ replace typed_before 1 1 (mkSlice [Text [] "hi"] 0 0) = Some typed_after
  /\ replace composed_before 2 3 (mkSlice [Text [] "c"] 0 0) = Some composed_after
  /\ replace flat_before 1 4 Slice_empty = Some flat_after
  /\ replace nested_before 2 10 (mkSlice [Text [] "Z"] 0 0) = Some nested_typed_after.
Proof. by_running. Qed.

(** C1, at a range that holds a block quote: the replaced range [[2, 10)]
    holds the leaves "Y" and "X", of which "X" is a pending insertion, so the
    deleted length is 1; the first pass counts 10, the sizes of the three
    children of the slice, boundary tokens and the pending insertion
    included. *)
Theorem delCount_counts_whole_children :
  deletedLength nested_before 2 10 = 1
  /\ delCount_of (Some nested_before) 2 10 = Ok 10
  /\ first_pass (docs nested_delete) (steps nested_delete) 0 0 false = Ok (10, false).
Proof. by_running. Qed.

(** When the replaced content is typed over, the count of 10 is added to the
    reported caret 3: the final selection asks for position 13 in a document
    of size 12, and the hook ends in a [RangeError]. *)
Lemma overcount_sends_caret_out_of_range :
  first_pass (docs nested_replace) (steps nested_replace) 0 0 false = Ok (10, true)
  /\ snd (onTransaction nested_replace (session nested_typed_after 3 120000))
     = Throw RangeError
  /\ size (content (w_doc (fst (onTransaction nested_replace
                                               (session nested_typed_after 3 120000)))))
     = 12.
Proof. by_running. Qed.

(** On a replaced range inside one paragraph the first pass and the
    specification agree. *)
Lemma delCount_flat_agrees :
  deletedLength flat_before 1 4 = 2
  /\ delCount_of (Some flat_before) 1 4 = Ok 2.
Proof. by_running. Qed.

(** More generally the first pass adds up the retained leaves of a slice
    whose children are all leaves. *)
Lemma forEach_count_node_flat (c : list Node) :
  Forall (fun n => is_leaf n = true) c ->
  forall p acc, forEach_from count_node c p acc = acc + retained_size c.
Proof.
  induction 1 as [|n r Hn Hr IH]; intros p acc; cbn [forEach_from].
  - unfold retained_size. cbn. lia.
  - rewrite IH. unfold retained_size, count_node. cbn [leaves_size].
    assert (L : leaves_of_node (fun m => negb (has_mark insertion m)) n
                = if has_mark insertion (marks n) then 0 else nodeSize n).
    { unfold is_leaf in Hn.
      destruct n as [m t|name m|name m k]; cbn [leaves_of_node marks content] in *.
      - destruct (has_mark insertion m); reflexivity.
      - destruct (has_mark insertion m); reflexivity.
      - rewrite Hn. cbn [negb]. destruct (has_mark insertion m); reflexivity. }
    rewrite L. destruct (has_mark insertion (marks n)); lia.
Qed.

(** There a deleted pending insertion is removed and the committed text is
    kept as a pending deletion: no character has both marks. *)
Lemma flat_pending_insertion_removed :
  w_doc (fst (onTransaction flat_delete (session flat_after 1 120000)))
  = document [paragraph [Text [mkMark deletion "u1" "Ann" (Some 120000)] "ab";
                         Text [] "c"]]
  /\ carries_both (w_doc (fst (onTransaction flat_delete (session flat_after 1 120000))))
     = false.
Proof. by_running. Qed.

(** C5, on the deletion across the block quote: neither the document before the deletion
    nor the one after it has a character with both marks; the hook returns
    normally, and in the document it commits the pending insertion "X" is
    still there and carries the Insertion and the Deletion mark, while the
    committed "Y" is gone. *)
Theorem nested_pending_insertion_gets_both_marks :
  carries_both nested_before = false
  /\ carries_both nested_after = false
  /\ snd (onTransaction nested_delete (session nested_after 2 120000)) = Ok tt
  /\ w_doc (fst (onTransaction nested_delete (session nested_after 2 120000)))
     = document
         [paragraph [Text [] "a"];
          blockquote
            [paragraph [Text [by_bob; mkMark deletion "u1" "Ann" (Some 120000)] "X"]];
          paragraph [Text [] "b"]]
  /\ carries_both
       (w_doc (fst (onTransaction nested_delete (session nested_after 2 120000))))
     = true.
Proof. by_running. Qed.

(** The skip step the hook issues there is at [[5, 6)], where the re-added
    document has "Y"; "X" is at [[6, 7)]. *)
Lemma nested_skip_step_misses :
  skipSteps (travelContent (slice_content (slice_in nested_before 2 10)) 2
                           (mkTravel [] 0 0)) = [(5, 6)]
  /\ between 5 6 (tokens (content nested_before)) = [TChar "Y" []]
  /\ between 6 7 (tokens (content nested_before)) = [TChar "X" [by_bob]].
Proof. by_running. Qed.


(** C6 fails: typed 35 seconds past a minute, "hi" is stamped with the next
    minute, not with the one rounded down to. *)
Lemma timestamp_rounds_up :
  w_doc (fst (onTransaction typed (session typed_after 3 1700000075000)))
  = document [paragraph [Text [mkMark insertion "u1" "Ann" (Some 1700000100000)] "hi"]]
  /\ minute_floor 1700000075000 = 1700000040000
  /\ minute_of 1700000075000 = 1700000100000
  /\ minute_of 1700000075000 <> minute_floor 1700000075000.
Proof. by_running. Qed.

End Runs.

(** *** The running re-add offset *)

Section ReAdd.
Import Transformer Scenarios.

Lemma travel_leaf_reAddOffset n start st :
  reAddOffset (travel_leaf n start st)
  = reAddOffset st - (if has_mark insertion (marks n) then nodeSize n else 0).
Proof.
  unfold travel_leaf. destruct (has_mark insertion (marks n)); cbn; lia.
Qed.

Lemma forEach_from_reAddOffset (f : Node -> Z -> Travel -> Travel) (c : list Node) :
  Forall (fun n => forall q st,
              reAddOffset (f n q st)
              = reAddOffset st - leaves_of_node (has_mark insertion) n) c ->
  forall p st,
    reAddOffset (forEach_from f c p st) = reAddOffset st - discarded_size c.
Proof.
  induction 1 as [|x r Hx Hr IH]; intros p st; cbn.
  - lia.
  - rewrite IH, Hx. unfold discarded_size. lia.
Qed.

Lemma travel_node_reAddOffset n :
  forall start st,
    reAddOffset (travel_node n start st)
    = reAddOffset st - leaves_of_node (has_mark insertion) n.
Proof.
  induction n as [m s|name m|name m c IH] using Node_induction; intros start st.
  - apply travel_leaf_reAddOffset.
  - apply travel_leaf_reAddOffset.
  - cbn [travel_node leaves_of_node].
    destruct (negb (size c =? 0)).
    + unfold forEach. rewrite forEach_from_reAddOffset; [reflexivity|].
      eapply Forall_impl; [|exact IH]. intros n Hn q st'. apply Hn.
    + apply travel_leaf_reAddOffset.
Qed.

Lemma travelContent_reAddOffset c parentOffset st :
  reAddOffset (travelContent c parentOffset st) = reAddOffset st - discarded_size c.
Proof.
  unfold travelContent, forEach. apply forEach_from_reAddOffset.
  apply Forall_forall. intros n _ q st'. apply travel_node_reAddOffset.
Qed.

(** C2 as the code has it: when deletion preservation of a step with
    [from <> to] completes with tracking on, the re-add offset has grown by
    the size of the inverted content less the size of its leaves that carry
    the Insertion mark, and that value is the one the rest of the steps of
    the transaction start from. *)
Theorem reAddOffset_after_replace_step
        (trdocs : list Node) (index : nat) (d : Node) (from to : Z) (s : Slice)
        (structure : bool) (rest : list Step) (t : Transform) (reAdd : Z)
        (w w' : World) (t' : Transform) (reAdd' : Z) (old : Slice) :
  nth_error trdocs index = Some d ->
  from <> to ->
  slice d from to = Some old ->
  second_pass_step true (Some d) from to s t reAdd w = (w', Ok (t', reAdd')) ->
  reAdd' = reAdd + slice_size old - discarded_size (slice_content old)
  /\ second_pass true trdocs (ReplaceStep from to s structure :: rest) index t reAdd w
     = second_pass true trdocs rest (S index) t' reAdd' w'.
Proof.
  intros Hd Hne Hold Hrun. split.
  - unfold second_pass_step, invert in Hrun. rewrite Hold in Hrun.
    apply Z.eqb_neq in Hne. rewrite Hne in Hrun.
    cbn [negb andb] in Hrun.
    unfold bind, lift, ret, get, getMinuteTime, commit in Hrun.
    repeat match goal with
           | H : context [match ?x with _ => _ end] |- _ =>
               destruct x eqn:?; try discriminate
           | H : (_, _) = (_, _) |- _ => injection H; clear H; intros; subst
           end;
      rewrite travelContent_reAddOffset; cbn [reAddOffset]; lia.
  - cbn [second_pass]. unfold bind at 1. rewrite Hd, Hrun. reflexivity.
Qed.

(** C2 fails as stated: deleting "abX" with "X" a pending insertion retains
    2 positions and discards 1; the offset grows by 2, not by 2 - 1. *)
Lemma reAddOffset_not_retained_minus_discarded :
  retained_size (slice_content (slice_in flat_before 1 4)) = 2
  /\ discarded_size (slice_content (slice_in flat_before 1 4)) = 1
  /\ (exists w' t',
        second_pass_step true (Some flat_before) 1 4 Slice_empty
                         (state_tr (session flat_after 1 0)) 0 (session flat_after 1 0)
        = (w', Ok (t', 2)))
  /\ 2 <> 0 + (retained_size (slice_content (slice_in flat_before 1 4))
               - discarded_size (slice_content (slice_in flat_before 1 4))).
Proof.
  split; [vm_compute; reflexivity|].
  split; [vm_compute; reflexivity|].
  split; [|vm_compute; discriminate].
  eexists. eexists. vm_compute. reflexivity.
Qed.

End ReAdd.

(** *** Time stamps *)

Section Stamps.
Import Transformer.

Variable lo : nat.

Lemma stamped_mono clk hi hi' c :
  (hi <= hi')%nat -> stamped clk lo hi c -> stamped clk lo hi' c.
Proof.
  intros Hle. destruct c; cbn; auto.
  intros [k [Hk Hd]]. exists k. split; [lia|exact Hd].
Qed.

Lemma event_stamped_mono clk hi hi' e :
  (hi <= hi')%nat -> event_stamped clk lo hi e -> event_stamped clk lo hi' e.
Proof.
  intros Hle. destruct e; cbn; auto.
  apply Forall_impl. intros c. now apply stamped_mono.
Qed.

Lemma extends_intro w w' new :
  clock w' = clock w -> (reads w <= reads w')%nat -> log w' = log w ++ new ->
  Forall (event_stamped (clock w) lo (reads w')) new ->
  extends lo w w'.
Proof.
  intros C R L F. split; [exact C|]. split; [exact R|].
  exists new. split; assumption.
Qed.

Lemma extends_refl w : extends lo w w.
Proof.
  apply extends_intro with (new := []);
    [reflexivity|lia|now rewrite app_nil_r|constructor].
Qed.

Lemma extends_trans w1 w2 w3 :
  extends lo w1 w2 -> extends lo w2 w3 -> extends lo w1 w3.
Proof.
  intros (C1 & R1 & n1 & L1 & F1) (C2 & R2 & n2 & L2 & F2).
  apply extends_intro with (new := n1 ++ n2); [congruence|lia| |].
  - rewrite L2, L1. now rewrite app_assoc.
  - apply Forall_app. split.
    + eapply Forall_impl; [|exact F1]. intros e. now apply event_stamped_mono.
    + now rewrite <- C1.
Qed.

Lemma Inv_extends t w w' : Inv lo t w -> extends lo w w' -> Inv lo t w'.
Proof.
  intros [F L] (C & R & _). split; [|lia].
  rewrite C. eapply Forall_impl; [|exact F]. intros c. now apply stamped_mono.
Qed.

Lemma sound_bind A B (m : M A) (k : A -> M B) w Q R :
  sound lo m w Q ->
  (forall a w1, extends lo w w1 -> Q a w1 -> sound lo (k a) w1 R) ->
  sound lo (bind m k) w R.
Proof.
  unfold sound, bind. destruct (m w) as [w1 [a|e]]; cbn [fst snd].
  - intros [E HQ] Hk. destruct (Hk a w1 E HQ) as [E2 HR].
    split; [eapply extends_trans; eassumption|exact HR].
  - intros [E _] _. split; [exact E|exact I].
Qed.

Lemma sound_weaken A (m : M A) w (Q Q' : A -> World -> Prop) :
  sound lo m w Q -> (forall a w1, Q a w1 -> Q' a w1) -> sound lo m w Q'.
Proof.
  unfold sound. intros [E H] HQ. split; [exact E|].
  destruct (snd (m w)); auto.
Qed.

Lemma sound_ret A (a : A) w (Q : A -> World -> Prop) : Q a w -> sound lo (ret a) w Q.
Proof. intros H. split; [apply extends_refl|exact H]. Qed.

Lemma sound_lift A (r : Res A) w (Q : A -> World -> Prop) :
  (forall a, r = Ok a -> Q a w) -> sound lo (lift r) w Q.
Proof.
  intros H. split; [apply extends_refl|]. cbn. destruct r; auto.
Qed.

Lemma sound_get w (Q : World -> World -> Prop) : Q w w -> sound lo get w Q.
Proof. intros H. split; [apply extends_refl|exact H]. Qed.

Lemma sound_quiet (f : World -> World) (e : list Event) w (Q : unit -> World -> Prop) :
  clock (f w) = clock w -> reads (f w) = reads w -> log (f w) = log w ++ e ->
  Forall (event_stamped (clock w) lo (reads w)) e ->
  Q tt (f w) ->
  sound lo (modify f) w Q.
Proof.
  intros C R L F H. split; [|exact H]. cbn.
  apply extends_intro with (new := e); [exact C|lia|exact L|now rewrite R].
Qed.

Lemma sound_getMinuteTime w :
  (lo <= reads w)%nat ->
  sound lo getMinuteTime w
        (fun date w1 => date = minute_of (clock w (reads w))
                        /\ clock w1 = clock w /\ reads w1 = S (reads w)).
Proof.
  intros L. split; cbn; [|auto].
  apply extends_intro with (new := []);
    [reflexivity|cbn; lia|cbn; now rewrite app_nil_r|constructor].
Qed.

Lemma sound_commit t w : Inv lo t w -> sound lo (commit t) w (fun _ w1 => Inv lo t w1).
Proof.
  intros [F L]. unfold sound, commit.
  destruct (Node_eqb (t_before t) (w_doc w)); cbn [fst snd].
  - split; [|split; assumption].
    eapply extends_intro; [reflexivity|cbn; lia|reflexivity|].
    constructor; [exact F|constructor].
  - split; [apply extends_refl|exact I].
Qed.

Lemma tr_addMark_calls t a b m t' :
  tr_addMark t a b m = Ok t' -> t_calls t' = t_calls t ++ [addMark a b m].
Proof.
  unfold tr_addMark. destruct (remark _ _ _ _); [|discriminate].
  now intros [= <-].
Qed.

Lemma tr_removeMark_calls t a b ty t' :
  tr_removeMark t a b ty = Ok t' -> t_calls t' = t_calls t ++ [removeMark a b ty].
Proof.
  unfold tr_removeMark. destruct (remark _ _ _ _); [|discriminate].
  now intros [= <-].
Qed.

Lemma tr_step_calls t a b s structure t' :
  tr_step t a b s structure = Ok t' -> t_calls t' = t_calls t ++ [step a b s structure].
Proof.
  unfold tr_step. destruct (ReplaceStep_apply _ _ _ _ _); [|discriminate].
  now intros [= <-].
Qed.

Lemma Inv_snoc t t' c w :
  Inv lo t w -> t_calls t' = t_calls t ++ [c] -> stamped (clock w) lo (reads w) c ->
  Inv lo t' w.
Proof.
  intros [F L] E S. split; [|exact L]. rewrite E. apply Forall_app.
  split; [exact F|]. constructor; [exact S|constructor].
Qed.

Lemma run_skipSteps_Inv l : forall t t' w,
  Inv lo t w -> run_skipSteps t l = Ok t' -> Inv lo t' w.
Proof.
  induction l as [|[a b] l IH]; intros t t' w HI; cbn.
  - now intros [= <-].
  - destruct (tr_step t a b Slice_empty false) as [t1|e] eqn:E; cbn; [|discriminate].
    apply IH. eapply Inv_snoc; [exact HI|eapply tr_step_calls; exact E|exact I].
Qed.

Lemma second_pass_step_sound trackChangeEnabled d from to s t reAdd w :
  Inv lo t w ->
  sound lo (second_pass_step trackChangeEnabled d from to s t reAdd) w
        (fun x w1 => Inv lo (fst x) w1).
Proof.
  intros HI. unfold second_pass_step.
  eapply sound_bind with (Q := fun _ w1 => w1 = w).
  { apply sound_lift. reflexivity. }
  intros [[inv_from inv_to] inv_slice] w1 _ ->.
  eapply sound_bind with (Q := fun x w1 => x = w /\ w1 = w).
  { apply sound_get. split; reflexivity. }
  intros x w1 _ [-> ->].
  eapply sound_bind with (Q := fun t1 w1 => Inv lo t1 w1).
  { destruct (negb (slice_size s =? 0)); [|apply sound_ret; exact HI].
    eapply sound_bind; [apply sound_getMinuteTime; apply HI|].
    intros date w1 E1 (-> & C1 & R1).
    apply sound_lift. intros t1 Hok.
    assert (HI1 : Inv lo t w1) by (eapply Inv_extends; eassumption).
    assert (HS : stamped (clock w1) lo (reads w1)
                         (addMark (from + reAdd) (from + reAdd + slice_size s)
                                  (mkMark insertion (dataOpUserId (w_storage w))
                                          (dataOpUserNickname (w_storage w))
                                          (Some (minute_of (clock w (reads w))))))).
    { exists (reads w). split; [destruct HI; lia|]. cbn. now rewrite C1. }
    unfold rbind in Hok. destruct trackChangeEnabled.
    - destruct (tr_addMark _ _ _ _) as [ta|] eqn:Ea; [|discriminate].
      eapply Inv_snoc; [|eapply tr_removeMark_calls; exact Hok|exact I].
      eapply Inv_snoc; [exact HI1|eapply tr_addMark_calls; exact Ea|exact HS].
    - destruct (tr_removeMark t _ _ insertion) as [ta|] eqn:Ea; [|discriminate].
      eapply Inv_snoc; [|eapply tr_removeMark_calls; exact Hok|exact I].
      eapply Inv_snoc; [exact HI1|eapply tr_removeMark_calls; exact Ea|exact I]. }
  intros t1 w1 _ HI1.
  eapply sound_bind with (Q := fun r w2 => Inv lo (fst r) w2).
  { destruct (negb (from =? to) && trackChangeEnabled); [|apply sound_ret; exact HI1].
    eapply sound_bind with (Q := fun t2 w2 => Inv lo t2 w2).
    { apply sound_lift. intros t2 Hok.
      eapply Inv_snoc; [exact HI1|eapply tr_step_calls; exact Hok|exact I]. }
    intros t2 w2 _ HI2.
    eapply sound_bind; [apply sound_getMinuteTime; apply HI2|].
    intros date w3 E3 (-> & C3 & R3).
    assert (HI3 : Inv lo t2 w3) by (eapply Inv_extends; eassumption).
    eapply sound_bind with (Q := fun t3 w4 => Inv lo t3 w4).
    { apply sound_lift. intros t3 Hok.
      eapply Inv_snoc; [exact HI3|eapply tr_addMark_calls; exact Hok|].
      exists (reads w2). split; [destruct HI2; lia|]. cbn. now rewrite C3. }
    intros t3 w4 _ HI4.
    eapply sound_bind with (Q := fun t4 w5 => Inv lo t4 w5).
    { apply sound_lift. intros t4 Hok. eapply run_skipSteps_Inv; eassumption. }
    intros t4 w5 _ HI5. apply sound_ret. exact HI5. }
  intros r w2 _ HI2.
  eapply sound_bind; [apply sound_commit; exact HI2|].
  intros u w3 _ HI3. apply sound_ret. exact HI3.
Qed.

Lemma second_pass_sound trackChangeEnabled trdocs l :
  forall index t reAdd w,
    Inv lo t w ->
    sound lo (second_pass trackChangeEnabled trdocs l index t reAdd) w
          (fun _ w1 => (lo <= reads w1)%nat).
Proof.
  induction l as [|[from to s structure|] l IH]; intros index t reAdd w HI;
    cbn [second_pass].
  - apply sound_ret. apply HI.
  - eapply sound_bind; [apply second_pass_step_sound; exact HI|].
    intros x w1 _ HI1. apply IH. exact HI1.
  - apply IH. exact HI.
Qed.

Lemma set_cursor_sound pos w :
  sound lo (set_cursor pos) w (fun _ w1 => reads w1 = reads w).
Proof.
  unfold sound, set_cursor.
  destruct ((0 <=? pos) && (pos <=? size (content (w_doc w)))); cbn [fst snd].
  - split; [|reflexivity].
    eapply extends_intro; [reflexivity|cbn; lia|reflexivity|].
    constructor; [|constructor]. cbn. constructor; [exact I|constructor].
  - split; [apply extends_refl|exact I].
Qed.

Lemma emit_sound (e : Event) w (Q : unit -> World -> Prop) :
  event_stamped (clock w) lo (reads w) e -> Q tt (emit e w) ->
  sound lo (modify (emit e)) w Q.
Proof.
  intros He HQ. apply sound_quiet with (e := [e]); try reflexivity; [|exact HQ].
  constructor; [exact He|constructor].
Qed.

Lemma onTransaction_sound transaction w :
  lo = reads w -> sound lo (onTransaction transaction) w (fun _ _ => True).
Proof.
  intros Hlo. unfold onTransaction.
  eapply sound_bind with (Q := fun x w1 => x = w /\ w1 = w).
  { apply sound_get. split; reflexivity. }
  intros x w1 _ [-> ->].
  eapply sound_bind with (Q := fun _ w1 => reads w1 = reads w /\ clock w1 = clock w).
  { apply sound_quiet with (e := []); try reflexivity;
      [cbn; now rewrite app_nil_r|constructor|split; reflexivity]. }
  intros u w1 _ [R1 C1].
  destruct (negb (docChanged transaction)); [apply sound_ret; exact I|].
  destruct (trackManualChanged transaction); [apply sound_ret; exact I|].
  destruct (history transaction); [apply sound_ret; exact I|].
  destruct (match y_sync transaction with
            | Some isChangeOrigin => isChangeOrigin
            | None => false
            end); [apply sound_ret; exact I|].
  destruct (List.length (steps transaction) =? 0)%nat; [apply sound_ret; exact I|].
  eapply sound_bind with (Q := fun _ w2 => w2 = w1).
  { apply sound_lift. reflexivity. }
  intros [counted hasAddAndDelete] w2 _ ->.
  eapply sound_bind.
  { apply second_pass_sound. split; [|lia].
    destruct (negb (before_is_current transaction)); constructor. }
  intros _ w2 _ _.
  eapply sound_bind with (Q := fun _ _ => True).
  { destruct (enabled (w_storage w)); [|apply sound_ret; exact I].
    eapply sound_weaken; [apply set_cursor_sound|]. intros; exact I. }
  intros _ w3 _ _.
  destruct (_ && _); [|apply sound_ret; exact I].
  unfold run_command, setTimeout.
  eapply sound_bind with (Q := fun _ _ => True); [apply emit_sound; exact I|].
  intros _ w4 _ _.
  eapply sound_bind with (Q := fun _ _ => True); [apply emit_sound; exact I|].
  intros _ w5 _ _.
  apply sound_quiet with (e := [SetTimeout FocusRestore 100]).
  - reflexivity.
  - reflexivity.
  - reflexivity.
  - constructor; [exact I|constructor].
  - exact I.
Qed.

Lemma minute_of_nearest t :
  (exists q, minute_of t = 60000 * q) /\ t - 30000 < minute_of t <= t + 30000.
Proof.
  unfold minute_of.
  pose proof (Z.div_mod (t + 30000) 60000 ltac:(lia)) as D.
  pose proof (Z.mod_pos_bound (t + 30000) 60000 ltac:(lia)) as B.
  split; [exists ((t + 30000) / 60000)|]; lia.
Qed.

End Stamps.

(** C6 as the code has it: every mark the hook adds to a transaction it
    commits is dated by [minute_of] of a clock reading taken during the hook,
    and [minute_of] of a reading is the whole minute nearest to it, the later
    one when it lies half-way: a multiple of 60000 ms not more than 30000 ms
    after the reading and less than 30000 ms before it. *)
Theorem timestamps_are_nearest_minute
        (transaction : Transformer.Transaction) (w : World) :
  let w' := fst (Transformer.onTransaction transaction w) in
  (exists new,
      log w' = log w ++ new
      /\ Forall (event_stamped (clock w) (reads w) (reads w')) new)
  /\ (forall t, (exists q, Transformer.minute_of t = 60000 * q)
                /\ t - 30000 < Transformer.minute_of t <= t + 30000).
Proof.
  cbv zeta. split; [|apply minute_of_nearest].
  destruct (@onTransaction_sound (reads w) transaction w eq_refl) as [(_ & _ & H) _].
  exact H.
Qed.

(** *** The theorems at concrete inputs *)

Section Witnesses.
Import Transformer Resolver Commands Scenarios.

Lemma gate_passes_through_witness :
  gated redo_typed
  /\ (let w' := fst (onTransaction redo_typed (session typed_after 3 0)) in
      snd (onTransaction redo_typed (session typed_after 3 0)) = Ok tt
      /\ log w' = log (session typed_after 3 0)
      /\ w_doc w' = w_doc (session typed_after 3 0)
      /\ w_selection w' = w_selection (session typed_after 3 0)
      /\ timers w' = timers (session typed_after 3 0)
      /\ w_storage w' = w_storage (session typed_after 3 0)).
Proof.
  split.
  - right. right. left. reflexivity.
  - apply (@gate_passes_through redo_typed (session typed_after 3 0)).
    right. right. left. reflexivity.
Defined.

Lemma status_callback_fires_witness :
  onStatusChange (w_storage reporting) = Some 7%nat
  /\ log (onCreate reporting) = [StatusChange 7%nat false]
  /\ log (setTrackChangeStatus false reporting) = [StatusChange 7%nat false]
  /\ log (toggleTrackChangeStatus reporting) = [StatusChange 7%nat true].
Proof.
  split; [reflexivity|].
  destruct (@status_callback_fires reporting 7%nat eq_refl) as (H1 & H2 & H3 & H4 & H5).
  split; [exact H1|]. split; [exact H3|exact H4].
Defined.

Lemma resolve_next_range_witness :
  confirms TRACK_COMMAND_ACCEPT ins_7_9
  /\ ~ confirms TRACK_COMMAND_ACCEPT del_2_5
  /\ resolve_all TRACK_COMMAND_ACCEPT ([del_2_5] ++ [ins_7_9]) (0, [])
     = (3, [deleteRange 2 5; removeMark 4 6 insertion; removeMark 4 6 deletion])
  /\ resolve_all TRACK_COMMAND_ACCEPT ([] ++ [del_2_5]) (0, [])
     = (3, [deleteRange 2 5]).
Proof.
  assert (C : confirms TRACK_COMMAND_ACCEPT ins_7_9) by (left; split; reflexivity).
  assert (N : ~ confirms TRACK_COMMAND_ACCEPT del_2_5)
    by (intros [[_ H]|[H _]]; discriminate H).
  split; [exact C|]. split; [exact N|]. split.
  - exact (proj1 (proj2 (@resolve_next_range TRACK_COMMAND_ACCEPT [del_2_5] ins_7_9)) C).
  - exact (proj2 (proj2 (@resolve_next_range TRACK_COMMAND_ACCEPT [] del_2_5)) N).
Defined.

Lemma resolve_nothing_tracked_witness :
  changeTrack (fixed_active false false) (fixed_range None None) bold_between
              (fun _ calls => List.length calls) (fun d _ => d)
              TRACK_COMMAND_ACCEPT_ALL (session typed_after 1 0)
  = session typed_after 1 0.
Proof.
  apply resolve_nothing_tracked.
  intros r H. cbn in H. destruct H as [<-|H]; [|exact (False_ind _ H)].
  split; discriminate.
Defined.

Lemma caret_scope_prefers_insertion_witness :
  fixed_active true true (session flat_before 4 0) insertion = true
  /\ fixed_active true true (session flat_before 4 0) deletion = true
  /\ fst (scope (fixed_active true true) (fixed_range (Some (3, 4)) (Some (1, 5)))
                bold_between TRACK_COMMAND_REJECT (session flat_before 4 0))
     = bold_between 3 4 flat_before
  /\ fst (scope (fixed_active false true) (fixed_range (Some (3, 4)) (Some (1, 5)))
                bold_between TRACK_COMMAND_REJECT (session flat_before 4 0))
     = bold_between 1 5 flat_before.
Proof.
  split; [reflexivity|]. split; [reflexivity|]. split.
  - exact (proj1 (@caret_scope_prefers_insertion
                    (fixed_active true true) (fixed_range (Some (3, 4)) (Some (1, 5)))
                    bold_between TRACK_COMMAND_REJECT (session flat_before 4 0)
                    (or_intror eq_refl) eq_refl) eq_refl).
  - exact (proj2 (@caret_scope_prefers_insertion
                    (fixed_active false true) (fixed_range (Some (3, 4)) (Some (1, 5)))
                    bold_between TRACK_COMMAND_REJECT (session flat_before 4 0)
                    (or_intror eq_refl) eq_refl) eq_refl eq_refl).
Defined.

Lemma reAddOffset_after_replace_step_witness :
  2 = 0 + slice_size (slice_in flat_before 1 4)
      - discarded_size (slice_content (slice_in flat_before 1 4))
  /\ snd (second_pass true [flat_before] [ReplaceStep 1 4 Slice_empty false] 0
                      (state_tr (session flat_after 1 0)) 0 (session flat_after 1 0))
     = Ok tt.
Proof.
  destruct (second_pass_step true (Some flat_before) 1 4 Slice_empty
                             (state_tr (session flat_after 1 0)) 0
                             (session flat_after 1 0))
    as [w' [[t' reAdd']|e]] eqn:E.
  - assert (R : reAdd' = 2) by (vm_compute in E; congruence).
    subst reAdd'.
    destruct (@reAddOffset_after_replace_step
                [flat_before] 0%nat flat_before 1 4 Slice_empty false []
                (state_tr (session flat_after 1 0)) 0 (session flat_after 1 0)
                w' t' 2 (slice_in flat_before 1 4)
                eq_refl ltac:(discriminate) eq_refl E) as [H1 H2].
    split; [exact H1|]. rewrite H2. reflexivity.
  - vm_compute in E. discriminate E.
Defined.

End Witnesses.

(* ================================================================== *)
(** ** Further properties *)
(* ================================================================== *)

(** *** Documents and their tokens *)

Section TokenFacts.

Lemma MarkType_eqb_eq a b : MarkType_eqb a b = true -> a = b.
Proof.
  destruct a, b; cbn; try discriminate; try reflexivity.
  intros H. apply String.eqb_eq in H. now subst.
Qed.

Lemma Mark_eqb_eq a b : Mark_eqb a b = true -> a = b.
Proof.
  destruct a as [t1 u1 n1 d1], b as [t2 u2 n2 d2]. unfold Mark_eqb. cbn.
  intros H. apply andb_prop in H. destruct H as [H Hd].
  apply andb_prop in H. destruct H as [H Hn].
  apply andb_prop in H. destruct H as [Ht Hu].
  apply MarkType_eqb_eq in Ht. apply String.eqb_eq in Hu, Hn.
  assert (d1 = d2).
  { destruct d1, d2; cbn in Hd; try discriminate; [|reflexivity].
    apply Z.eqb_eq in Hd. now subst. }
  now subst.
Qed.

Lemma marks_eqb_eq a : forall b, marks_eqb a b = true -> a = b.
Proof.
  unfold marks_eqb. induction a as [|x a IH]; intros [|y b]; cbn;
    try discriminate; [reflexivity|].
  intros H. apply andb_prop in H. destruct H as [H1 H2].
  apply Mark_eqb_eq in H1. apply IH in H2. now subst.
Qed.

Lemma tokens_app a b : tokens (a ++ b) = tokens a ++ tokens b.
Proof.
  induction a as [|x a IH]; cbn; [reflexivity|]. now rewrite IH, app_assoc.
Qed.

Lemma node_tokens_Elem name m c :
  node_tokens (Elem name m c) = TOpen name m :: tokens c ++ [TClose].
Proof. reflexivity. Qed.

Lemma list_ascii_snoc s c :
  list_ascii_of_string (String.append s (String c ""))
  = list_ascii_of_string s ++ [c].
Proof. induction s as [|x s IH]; cbn; [reflexivity|]. now rewrite IH. Qed.

Lemma tokens_push_char c m acc :
  tokens (rev (push_char c m acc)) = tokens (rev acc) ++ [TChar c m].
Proof.
  unfold push_char.
  destruct acc as [|[m' s|name m'|name m' k] r]; cbn [rev];
    rewrite ?tokens_app; cbn; try reflexivity.
  destruct (marks_eqb m' m) eqn:E; cbn [rev]; rewrite ?tokens_app; cbn.
  - apply marks_eqb_eq in E. subst m'.
    rewrite list_ascii_snoc, map_app, !app_nil_r. cbn. now rewrite <- app_assoc.
  - rewrite !app_nil_r. now rewrite <- app_assoc.
Qed.

Lemma read_so_far_snoc stack acc x ts :
  tokens (rev (x :: acc)) = tokens (rev acc) ++ ts ->
  read_so_far stack (x :: acc) = read_so_far stack acc ++ ts.
Proof.
  intros H. destruct stack as [|[[name m] outer] st]; cbn [read_so_far].
  - exact H.
  - rewrite H. rewrite <- app_assoc. reflexivity.
Qed.

Lemma parse_tokens ts : forall stack acc c,
  parse ts stack acc = Some c -> tokens c = read_so_far stack acc ++ ts.
Proof.
  induction ts as [|t ts IH]; intros stack acc c; cbn [parse].
  - destruct stack; [|discriminate]. intros [= <-]. cbn. now rewrite app_nil_r.
  - destruct t as [name m| |ch m|name m].
    + intros H. apply IH in H. rewrite H. cbn [read_so_far rev tokens].
      rewrite <- app_assoc. reflexivity.
    + destruct stack as [|[[name m] outer] st]; [discriminate|].
      intros H. apply IH in H. rewrite H.
      rewrite read_so_far_snoc with (ts := node_tokens (Elem name m (rev acc))).
      * rewrite node_tokens_Elem. cbn [read_so_far].
        rewrite <- !app_assoc. cbn. rewrite <- app_assoc. reflexivity.
      * cbn [rev]. rewrite tokens_app. cbn. now rewrite app_nil_r.
    + intros H. apply IH in H. rewrite H.
      assert (E : read_so_far stack (push_char ch m acc)
                  = read_so_far stack acc ++ [TChar ch m]).
      { destruct stack as [|[[name' m'] outer] st]; cbn [read_so_far].
        - apply tokens_push_char.
        - rewrite tokens_push_char. rewrite <- app_assoc. reflexivity. }
      rewrite E, <- app_assoc. reflexivity.
    + intros H. apply IH in H. rewrite H.
      rewrite read_so_far_snoc with (ts := [TAtom name m]).
      * rewrite <- app_assoc. reflexivity.
      * cbn [rev]. rewrite tokens_app. cbn. reflexivity.
Qed.

(** Reading tokens back and flattening again gives the tokens. *)
Lemma of_tokens_tokens ts c : of_tokens ts = Some c -> tokens c = ts.
Proof. unfold of_tokens. intros H. apply parse_tokens in H. exact H. Qed.

Lemma remark_tokens f d from to d' :
  remark f d from to = Some d' ->
  tokens (content d') = map_range (on_marks f) from to 0 (tokens (content d)).
Proof.
  unfold remark. destruct d as [| |name m c]; try discriminate.
  destruct (to <=? size c); [|discriminate].
  destruct (of_tokens _) as [c'|] eqn:E; [|discriminate].
  intros [= <-]. cbn [content]. now apply of_tokens_tokens.
Qed.

End TokenFacts.

(** *** What the hook leaves alone *)

Section Frame.
Import Transformer.

Lemma fades_refl t : fades t t.
Proof.
  split; [|split; auto]. destruct t; reflexivity.
Qed.

Lemma fades_trans a b c : fades a b -> fades b c -> fades a c.
Proof.
  intros (E1 & I1 & K1) (E2 & I2 & K2). split; [|split].
  - rewrite E2. rewrite E1. destruct a; reflexivity.
  - auto.
  - auto.
Qed.

Lemma demarked_refl d : demarked d d.
Proof.
  unfold demarked. induction (tokens (content d)); constructor;
    [apply fades_refl|assumption].
Qed.

Lemma Forall2_trans_fades l1 : forall l2 l3,
  Forall2 fades l1 l2 -> Forall2 fades l2 l3 -> Forall2 fades l1 l3.
Proof.
  induction l1 as [|a l1 IH]; intros l2 l3 H12 H23.
  - inversion H12; subst. inversion H23; subst. constructor.
  - inversion H12; subst. inversion H23; subst. constructor.
    + eapply fades_trans; eassumption.
    + eapply IH; eassumption.
Qed.

Lemma demarked_trans a b c : demarked a b -> demarked b c -> demarked a c.
Proof. unfold demarked. apply Forall2_trans_fades. Qed.

Lemma fades_remove_type ty t :
  tracked ty = true -> fades t (on_marks (remove_type ty) t).
Proof.
  intros Hty. split; [|split].
  - destruct t; reflexivity.
  - intros m. destruct t; cbn; try tauto; unfold remove_type;
      intros H; apply filter_In in H; tauto.
  - intros m Hin Hm.
    assert (K : negb (MarkType_eqb (mark_type m) ty) = true).
    { destruct (MarkType_eqb (mark_type m) ty) eqn:E; [|reflexivity].
      apply MarkType_eqb_eq in E. congruence. }
    destruct t; cbn in *; try tauto; unfold remove_type; apply filter_In; auto.
Qed.

Lemma map_range_fades ty from to l : forall p,
  tracked ty = true ->
  Forall2 fades l (map_range (on_marks (remove_type ty)) from to p l).
Proof.
  induction l as [|t l IH]; intros p Hty; cbn [map_range]; constructor.
  - destruct ((from <=? p) && (p <? to)); [now apply fades_remove_type|apply fades_refl].
  - now apply IH.
Qed.

Lemma remark_remove_demarked ty d from to d' :
  tracked ty = true -> remark (remove_type ty) d from to = Some d' -> demarked d d'.
Proof.
  intros Hty H. unfold demarked. rewrite (remark_tokens _ _ _ _ H).
  now apply map_range_fades.
Qed.

(** The rules of [holds] for a reflexive and transitive relation. *)
Section Rules.
Variable Rel : World -> World -> Prop.
Hypothesis Rel_refl : forall w, Rel w w.
Hypothesis Rel_trans : forall a b c, Rel a b -> Rel b c -> Rel a c.

Lemma holds_bind A B (m : M A) (k : A -> M B) w Q R :
  holds Rel m w Q ->
  (forall a w1, Rel w w1 -> Q a w1 -> holds Rel (k a) w1 R) ->
  holds Rel (bind m k) w R.
Proof.
  unfold holds, bind. destruct (m w) as [w1 [a|e]]; cbn [fst snd].
  - intros [E HQ] Hk. destruct (Hk a w1 E HQ) as [E2 HR].
    split; [eapply Rel_trans; eassumption|exact HR].
  - intros [E _] _. split; [exact E|exact I].
Qed.

Lemma holds_weaken A (m : M A) w (Q Q' : A -> World -> Prop) :
  holds Rel m w Q -> (forall a w1, Q a w1 -> Q' a w1) -> holds Rel m w Q'.
Proof.
  unfold holds. intros [E H] HQ. split; [exact E|].
  destruct (snd (m w)); auto.
Qed.

Lemma holds_ret A (a : A) w (Q : A -> World -> Prop) :
  Q a w -> holds Rel (ret a) w Q.
Proof. intros H. split; [apply Rel_refl|exact H]. Qed.

Lemma holds_lift A (r : Res A) w (Q : A -> World -> Prop) :
  (forall a, r = Ok a -> Q a w) -> holds Rel (lift r) w Q.
Proof. intros H. split; [apply Rel_refl|]. cbn. destruct r; auto. Qed.

Lemma holds_get w (Q : World -> World -> Prop) : Q w w -> holds Rel get w Q.
Proof. intros H. split; [apply Rel_refl|exact H]. Qed.

Lemma holds_modify (f : World -> World) w (Q : unit -> World -> Prop) :
  Rel w (f w) -> Q tt (f w) -> holds Rel (modify f) w Q.
Proof. intros H HQ. split; assumption. Qed.

End Rules.

Variable applied : bool.

Lemma follows_refl w : follows applied w w.
Proof.
  unfold follows. repeat (split; [reflexivity|]). split.
  - exists []. split; [now rewrite app_nil_r|constructor].
  - intros _. split; [reflexivity|]. split; [reflexivity|].
    intros _. apply demarked_refl.
Qed.

Lemma follows_trans a b c :
  follows applied a b -> follows applied b c -> follows applied a c.
Proof.
  intros (S1 & D1 & C1 & P1 & Q1 & (n1 & L1 & F1) & O1)
         (S2 & D2 & C2 & P2 & Q2 & (n2 & L2 & F2) & O2).
  unfold follows. rewrite S1 in *.
  split; [congruence|]. split; [congruence|]. split; [congruence|].
  split; [congruence|]. split; [congruence|]. split.
  - exists (n1 ++ n2). split; [rewrite L2, L1; now rewrite app_assoc|].
    apply Forall_app. split; assumption.
  - intros E. destruct (O1 E) as (A1 & B1 & K1). destruct (O2 E) as (A2 & B2 & K2).
    split; [congruence|]. split; [congruence|].
    intros Ha. eapply demarked_trans; [apply K1|apply K2]; exact Ha.
Qed.

(** A change of the clock readings only. *)
Lemma follows_set_reads n w : follows applied w (set_reads n w).
Proof.
  unfold follows. cbn. repeat (split; [reflexivity|]). split.
  - exists []. split; [now rewrite app_nil_r|constructor].
  - intros _. split; [reflexivity|]. split; [reflexivity|].
    intros _. apply demarked_refl.
Qed.

Lemma built_snoc w t t' c :
  built applied w t -> t_calls t' = t_calls t ++ [c] -> call_by (w_storage w) c ->
  (enabled (w_storage w) = false -> applied = true -> demarked (t_doc t) (t_doc t')) ->
  built applied w t'.
Proof.
  intros [F D] E Hc Hd. split.
  - rewrite E. apply Forall_app. split; [exact F|]. constructor; [exact Hc|constructor].
  - intros H1 H2. eapply demarked_trans; [apply D|apply Hd]; assumption.
Qed.

Lemma built_same_doc w w1 t :
  built applied w t -> w_storage w1 = w_storage w -> w_doc w1 = w_doc w ->
  built applied w1 t.
Proof. intros [F D] S E. unfold built. rewrite S, E. split; assumption. Qed.

Lemma tr_removeMark_built w t a b ty t' :
  built applied w t -> tracked ty = true ->
  tr_removeMark t a b ty = Ok t' -> built applied w t'.
Proof.
  intros HB Hty H.
  eapply built_snoc; [exact HB|eapply tr_removeMark_calls; exact H| |].
  - cbn. destruct ty; cbn in Hty; try discriminate; auto.
  - intros _ _. unfold tr_removeMark in H.
    destruct (remark (remove_type ty) (t_doc t) a b) as [d|] eqn:E; [|discriminate].
    injection H as <-. cbn. eapply remark_remove_demarked; eassumption.
Qed.

Lemma tr_addMark_built w t a b m t' :
  built applied w t -> call_by (w_storage w) (addMark a b m) ->
  tr_addMark t a b m = Ok t' -> built applied w t'.
Proof.
  intros HB Hc H.
  eapply built_snoc; [exact HB|eapply tr_addMark_calls; exact H|exact Hc|].
  intros E. destruct Hc as [Hen _]. congruence.
Qed.

Lemma tr_step_built w t a b s structure t' :
  built applied w t -> enabled (w_storage w) = true ->
  tr_step t a b s structure = Ok t' -> built applied w t'.
Proof.
  intros HB Hen H.
  eapply built_snoc; [exact HB|eapply tr_step_calls; exact H|exact Hen|].
  intros E. congruence.
Qed.

Lemma run_skipSteps_built l : forall w t t',
  built applied w t -> enabled (w_storage w) = true ->
  run_skipSteps t l = Ok t' -> built applied w t'.
Proof.
  induction l as [|[a b] l IH]; intros w t t' HB Hen; cbn.
  - now intros [= <-].
  - destruct (tr_step t a b Slice_empty false) as [t1|e] eqn:E; cbn; [|discriminate].
    apply IH; [|exact Hen]. eapply tr_step_built; eassumption.
Qed.

Lemma commit_holds t w :
  built applied w t ->
  holds (follows applied) (commit t) w (fun _ w1 => built applied w1 t).
Proof.
  intros [F D]. unfold holds, commit.
  destruct (Node_eqb (t_before t) (w_doc w)); cbn [fst snd].
  - split.
    + unfold follows. cbn. repeat (split; [reflexivity|]). split.
      * eexists. split; [reflexivity|].
        constructor; [|constructor]. split; [reflexivity|exact F].
      * intros E. split; [reflexivity|]. split; [reflexivity|]. intros Ha. now apply D.
    + split; [exact F|]. intros _ _. apply demarked_refl.
  - split; [apply follows_refl|exact I].
Qed.

End Frame.

Section FrameOfHook.
Import Transformer.
Variable applied : bool.

Let Rel := follows applied.
Let bind_rule := @holds_bind Rel (@follows_trans applied).

Ltac three :=
  split; [first [reflexivity|assumption]
         |split; [first [reflexivity|assumption]|assumption]].

Lemma getMinuteTime_holds w (Q : Z -> World -> Prop) :
  Q (minute_of (clock w (reads w))) (set_reads (S (reads w)) w) ->
  holds Rel getMinuteTime w Q.
Proof. intros H. split; [apply follows_set_reads|exact H]. Qed.

Lemma second_pass_step_follows en d from to s t reAdd w :
  enabled (w_storage w) = en ->
  built applied w t ->
  holds Rel (second_pass_step en d from to s t reAdd) w
        (fun x w1 => enabled (w_storage w1) = en /\ built applied w1 (fst x)).
Proof.
  intros Hen HB. unfold second_pass_step.
  eapply bind_rule with (Q := fun _ w1 => w1 = w).
  { apply holds_lift; [apply follows_refl|reflexivity]. }
  intros [[inv_from inv_to] inv_slice] w1 _ ->.
  eapply bind_rule with (Q := fun x w1 => x = w /\ w1 = w).
  { apply holds_get; [apply follows_refl|split; reflexivity]. }
  intros x w1 _ [-> ->].
  eapply bind_rule
    with (Q := fun t1 w1 => w_storage w1 = w_storage w /\ w_doc w1 = w_doc w
                            /\ built applied w t1).
  { destruct (negb (slice_size s =? 0));
      [|apply holds_ret; [apply follows_refl|three]].
    eapply bind_rule
      with (Q := fun date w1 => w1 = set_reads (S (reads w)) w).
    { apply getMinuteTime_holds. reflexivity. }
    intros date w1 _ ->.
    apply holds_lift; [apply follows_refl|]. intros t1 Hok.
    split; [reflexivity|]. split; [reflexivity|].
    unfold rbind in Hok. destruct en.
    - destruct (tr_addMark _ _ _ _) as [ta|] eqn:Ea; [|discriminate].
      eapply tr_removeMark_built with (ty := deletion); [|reflexivity|exact Hok].
      eapply tr_addMark_built; [exact HB| |exact Ea].
      cbn. auto.
    - destruct (tr_removeMark t _ _ insertion) as [ta|] eqn:Ea; [|discriminate].
      eapply tr_removeMark_built with (ty := deletion); [|reflexivity|exact Hok].
      eapply tr_removeMark_built with (ty := insertion);
        [exact HB|reflexivity|exact Ea]. }
  intros t1 w1 _ (S1 & D1 & HB1).
  eapply bind_rule
    with (Q := fun r w2 => w_storage w2 = w_storage w /\ w_doc w2 = w_doc w
                           /\ built applied w (fst r)).
  { destruct (negb (from =? to)); cbn [andb];
      [|apply holds_ret; [apply follows_refl|three]].
    destruct en; [|apply holds_ret; [apply follows_refl|three]].
    eapply bind_rule with (Q := fun t2 w2 => w2 = w1 /\ built applied w t2).
    { apply holds_lift; [apply follows_refl|]. intros t2 Hok.
      split; [reflexivity|]. eapply tr_step_built; eassumption. }
    intros t2 w2 _ [-> HB2].
    eapply bind_rule
      with (Q := fun date w2 => w2 = set_reads (S (reads w1)) w1).
    { apply getMinuteTime_holds. reflexivity. }
    intros date w2 _ ->.
    eapply bind_rule
      with (Q := fun t3 w3 => w3 = set_reads (S (reads w1)) w1 /\ built applied w t3).
    { apply holds_lift; [apply follows_refl|]. intros t3 Hok.
      split; [reflexivity|].
      eapply tr_addMark_built; [exact HB2| |exact Hok].
      cbn. auto. }
    intros t3 w3 _ [-> HB3].
    eapply bind_rule
      with (Q := fun t4 w4 => w4 = set_reads (S (reads w1)) w1 /\ built applied w t4).
    { apply holds_lift; [apply follows_refl|]. intros t4 Hok.
      split; [reflexivity|].
      eapply run_skipSteps_built; [exact HB3|exact Hen|exact Hok]. }
    intros t4 w4 _ [-> HB4].
    apply holds_ret; [apply follows_refl|]. cbn [fst]. three. }
  intros r w2 _ (S2 & D2 & HB2).
  assert (HB2' : built applied w2 (fst r))
    by (eapply built_same_doc; [exact HB2|exact S2|exact D2]).
  eapply bind_rule; [apply commit_holds; exact HB2'|].
  intros u w3 HR HB3. apply holds_ret; [apply follows_refl|].
  split; [|exact HB3].
  destruct HR as (S3 & _). rewrite S3, S2. exact Hen.
Qed.

Lemma second_pass_follows en trdocs l :
  forall index t reAdd w,
    enabled (w_storage w) = en ->
    built applied w t ->
    holds Rel (second_pass en trdocs l index t reAdd) w (fun _ _ => True).
Proof.
  induction l as [|[from to s structure|] l IH]; intros index t reAdd w Hen HB;
    cbn [second_pass].
  - apply holds_ret; [apply follows_refl|exact I].
  - eapply bind_rule; [apply second_pass_step_follows; assumption|].
    intros x w1 _ [Hen1 HB1]. apply IH; assumption.
  - apply IH; assumption.
Qed.

End FrameOfHook.

Section FrameOfTransaction.
Import Transformer.

Lemma set_cursor_follows applied pos w :
  enabled (w_storage w) = true ->
  holds (follows applied) (set_cursor pos) w (fun _ _ => True).
Proof.
  intros Hen. unfold holds, set_cursor.
  destruct ((0 <=? pos) && (pos <=? size (content (w_doc w)))); cbn [fst snd].
  - split; [|exact I]. unfold follows. cbn.
    repeat (split; [reflexivity|]). split.
    + eexists. split; [reflexivity|].
      constructor; [|constructor]. split; [reflexivity|].
      constructor; [exact Hen|constructor].
    + intros E. congruence.
  - split; [apply follows_refl|exact I].
Qed.

Lemma emit_follows applied (e : Event) (f : World -> World) w :
  enabled (w_storage w) = true ->
  event_by (w_storage w) e ->
  w_storage (f w) = w_storage w -> isDestroyed (f w) = isDestroyed w ->
  clock (f w) = clock w -> composingStatus (f w) = composingStatus w ->
  isStartChineseInput (f w) = isStartChineseInput w ->
  log (f w) = log w ++ [e] ->
  holds (follows applied) (modify f) w (fun _ _ => True).
Proof.
  intros Hen He S D C P Q L. apply holds_modify; [|exact I].
  unfold follows. repeat (split; [assumption|]). split.
  - exists [e]. split; [exact L|]. constructor; [exact He|constructor].
  - intros E. congruence.
Qed.

(** Past the reset of the composition variables, the hook [follows]. *)
Lemma onTransaction_follows (transaction : Transaction) (w : World) :
  follows (negb (before_is_current transaction))
          (set_composition IME_STATUS_NORMAL false w)
          (fst (onTransaction transaction w)).
Proof.
  set (applied := negb (before_is_current transaction)).
  assert (bind_rule := @holds_bind (follows applied) (@follows_trans applied)).
  unfold onTransaction. unfold bind at 1. unfold get at 1. cbn beta iota.
  unfold bind at 1. unfold modify at 1. cbn beta iota.
  set (w1 := set_composition IME_STATUS_NORMAL false w).
  match goal with
  | |- follows _ _ (fst (?m w1)) =>
      enough (H : holds (follows applied) m w1 (fun _ _ => True))
        by exact (proj1 H)
  end.
  destruct (negb (docChanged transaction));
    [apply holds_ret; [apply follows_refl|exact I]|].
  destruct (trackManualChanged transaction);
    [apply holds_ret; [apply follows_refl|exact I]|].
  destruct (history transaction);
    [apply holds_ret; [apply follows_refl|exact I]|].
  destruct (match y_sync transaction with
            | Some isChangeOrigin => isChangeOrigin
            | None => false
            end); [apply holds_ret; [apply follows_refl|exact I]|].
  destruct (List.length (steps transaction) =? 0)%nat;
    [apply holds_ret; [apply follows_refl|exact I]|].
  eapply bind_rule with (Q := fun _ w2 => w2 = w1).
  { apply holds_lift; [apply follows_refl|reflexivity]. }
  intros [counted hasAddAndDelete] w2 _ ->.
  eapply bind_rule with (Q := fun _ _ => True).
  { apply second_pass_follows; [reflexivity|]. split.
    - destruct (negb (before_is_current transaction)); constructor.
    - intros _ Ha. subst applied. rewrite Ha. apply demarked_refl. }
  intros u w2 HR _.
  assert (S2 : w_storage w2 = w_storage w) by (destruct HR as (S2 & _); exact S2).
  destruct (enabled (w_storage w)) eqn:Hen.
  - eapply bind_rule with (Q := fun _ _ => True).
    { apply set_cursor_follows. now rewrite S2. }
    intros u' w3 HR3 _.
    assert (S3 : w_storage w3 = w_storage w)
      by (destruct HR3 as (S3 & _); now rewrite S3).
    destruct (_ && _); [|apply holds_ret; [apply follows_refl|exact I]].
    unfold run_command, setTimeout.
    eapply bind_rule with (Q := fun _ _ => True).
    { apply emit_follows with (e := Command deleteSelection);
        try reflexivity; cbn; now rewrite S3. }
    intros u4 w4 HR4 _.
    assert (S4 : w_storage w4 = w_storage w)
      by (destruct HR4 as (S4 & _); now rewrite S4).
    eapply bind_rule with (Q := fun _ _ => True).
    { apply emit_follows with (e := Command blur);
        try reflexivity; cbn; now rewrite S4. }
    intros u5 w5 HR5 _.
    assert (S5 : w_storage w5 = w_storage w)
      by (destruct HR5 as (S5 & _); now rewrite S5).
    apply emit_follows with (e := SetTimeout FocusRestore 100);
      try reflexivity; cbn; now rewrite S5.
  - eapply bind_rule with (Q := fun _ _ => True).
    { apply holds_ret; [apply follows_refl|exact I]. }
    intros u' w3 _ _. cbn [andb].
    rewrite andb_false_r.
    apply holds_ret; [apply follows_refl|exact I].
Qed.

End FrameOfTransaction.

(** *** The deferred focus restore *)

Section Deferred.
Import Transformer.









End Deferred.

(** *** The hook as a whole *)

Section HookFacts.
Import Transformer Scenarios.

(** X1: the composition variables are consumed by every turn of the hook:
    whether it ignores the transaction, rewrites it or ends in an exception,
    [composingStatus] is back to [IME_STATUS_NORMAL] and
    [isStartChineseInput] to [false] afterwards. *)
Theorem composition_is_consumed (transaction : Transaction) (w : World) :
  composingStatus (fst (onTransaction transaction w)) = IME_STATUS_NORMAL
  /\ isStartChineseInput (fst (onTransaction transaction w)) = false.
Proof.
  destruct (onTransaction_follows transaction w) as (_ & _ & _ & P & Q & _).
  split; [exact P|exact Q].
Qed.

(** X2: the hook never touches the session: the storage (tracking status,
    attribution, callback) and the destroyed flag are as before, and the
    status-change callback is not called. *)
Theorem hook_keeps_session (transaction : Transaction) (w : World) :
  let w' := fst (onTransaction transaction w) in
  w_storage w' = w_storage w
  /\ isDestroyed w' = isDestroyed w
  /\ exists new, log w' = log w ++ new
                 /\ forall cb status, ~ In (StatusChange cb status) new.
Proof.
  cbv zeta.
  destruct (onTransaction_follows transaction w) as (S & D & _ & _ & _ & (new & L & F) & _).
  split; [exact S|]. split; [exact D|].
  exists new. split; [exact L|]. intros cb status Hin.
  rewrite Forall_forall in F. exact (F _ Hin).
Qed.

(** X3: every mark the hook adds in a transaction it commits is an Insertion
    or a Deletion mark carrying the user id and nickname of the storage, and
    marks are added only while tracking is enabled. *)
Theorem added_marks_are_attributed (transaction : Transaction) (w : World) :
  exists new,
    log (fst (onTransaction transaction w)) = log w ++ new
    /\ forall manual calls d from to m,
         In (UpdateState manual calls d) new -> In (addMark from to m) calls ->
         enabled (w_storage w) = true
         /\ (mark_type m = insertion \/ mark_type m = deletion)
         /\ data_op_user_id m = dataOpUserId (w_storage w)
         /\ data_op_user_nickname m = dataOpUserNickname (w_storage w).
Proof.
  destruct (onTransaction_follows transaction w) as (_ & _ & _ & _ & _ & (new & L & F) & _).
  exists new. split; [exact L|]. intros manual calls d from to m He Hc.
  rewrite Forall_forall in F. destruct (F _ He) as [_ Fc].
  rewrite Forall_forall in Fc. exact (Fc _ Hc).
Qed.

(** X4: with tracking disabled the hook only strips marks: whatever it
    commits holds [removeMark] calls for the Insertion or the Deletion mark
    and nothing else; it sets no selection, runs no command and schedules no
    timer. *)
Theorem disabled_hook_only_strips_marks (transaction : Transaction) (w : World) :
  enabled (w_storage w) = false ->
  let w' := fst (onTransaction transaction w) in
  w_selection w' = w_selection w
  /\ timers w' = timers w
  /\ exists new,
      log w' = log w ++ new
      /\ forall e, In e new ->
           exists calls d,
             e = UpdateState false calls d
             /\ forall c, In c calls ->
                  exists from to ty, c = removeMark from to ty
                                     /\ (ty = insertion \/ ty = deletion).
Proof.
  intros Hen. cbv zeta.
  destruct (onTransaction_follows transaction w)
    as (_ & _ & _ & _ & _ & (new & L & F) & O).
  destruct (O Hen) as (Hs & Ht & _).
  split; [exact Hs|]. split; [exact Ht|].
  exists new. split; [exact L|]. intros e He.
  rewrite Forall_forall in F. specialize (F _ He).
  change (w_storage (set_composition IME_STATUS_NORMAL false w)) with (w_storage w) in F.
  destruct e as [cb st|manual calls d|c|body ms]; cbn in F; try congruence; try tauto.
  destruct F as [-> Fc]. exists calls, d. split; [reflexivity|].
  intros c Hc. rewrite Forall_forall in Fc. specialize (Fc _ Hc).
  destruct c as [a b m|a b ty|a b s st|a b|pos]; cbn in Fc; try congruence; try tauto.
  - destruct Fc as [E _]. congruence.
  - exists a, b, ty. split; [reflexivity|exact Fc].
Qed.

(** X5: with tracking disabled, an applied transaction keeps its text: the
    document the hook leaves has the same nodes and characters as the one it
    found, no token has a mark it did not have, and no mark other than an
    Insertion or a Deletion is lost. *)
Theorem disabled_hook_keeps_text (transaction : Transaction) (w : World) :
  enabled (w_storage w) = false ->
  before_is_current transaction = false ->
  demarked (w_doc w) (w_doc (fst (onTransaction transaction w))).
Proof.
  intros Hen Happ.
  destruct (onTransaction_follows transaction w) as (_ & _ & _ & _ & _ & _ & O).
  destruct (O Hen) as (_ & _ & K). apply K. now rewrite Happ.
Qed.

End HookFacts.

(** *** The final selection *)

Section Cursor.
Import Transformer Scenarios.

Lemma not_gated tr :
  ~ gated tr ->
  docChanged tr = true /\ trackManualChanged tr = false /\ history tr = false
  /\ match y_sync tr with Some isChangeOrigin => isChangeOrigin | None => false end
     = false
  /\ (List.length (steps tr) =? 0)%nat = false.
Proof.
  unfold gated. intros G.
  destruct (docChanged tr); [|tauto].
  destruct (trackManualChanged tr); [tauto|].
  destruct (history tr); [tauto|].
  destruct (y_sync tr) as [[|]|]; [tauto| |];
    (destruct (steps tr); [tauto|]); repeat split; reflexivity.
Qed.

(** With tracking on, a turn that returns has committed the selection-only
    transaction last: after it come at most the three calls of the
    composition recovery. *)
Lemma hook_final_commit tr w w' :
  ~ gated tr -> enabled (w_storage w) = true ->
  onTransaction tr w = (w', Ok tt) ->
  exists counted hasAddAndDelete new tail,
    first_pass (docs tr) (steps tr) 0 0 false = Ok (counted, hasAddAndDelete)
    /\ log w'
       = log w ++ new
         ++ UpdateState false
              [setSelection
                 (selection_from tr
                  + (if composingStatus w =? IME_STATUS_NORMAL
                     then if negb hasAddAndDelete then 0 else counted
                     else if isStartChineseInput w
                             && (composingStatus w =? IME_STATUS_CONTINUE)
                          then if negb hasAddAndDelete then 0 else counted
                          else if negb (isStartChineseInput w)
                                  && (composingStatus w =? IME_STATUS_CONTINUE)
                               then 0 else counted))]
              (w_doc w')
         :: tail
    /\ (tail = []
        \/ (isStartChineseInput w && (composingStatus w =? IME_STATUS_CONTINUE)
            && hasAddAndDelete = true
            /\ tail = [Command deleteSelection; Command blur;
                       SetTimeout FocusRestore 100])).
Proof.
  intros G Hen H.
  destruct (not_gated G) as (G1 & G2 & G3 & G4 & G5).
  unfold onTransaction in H. unfold bind at 1 in H. unfold get at 1 in H.
  cbn beta iota in H. unfold bind at 1 in H. unfold modify at 1 in H.
  cbn beta iota in H. rewrite G1, G2, G3, G4, G5 in H. cbn [negb] in H.
  set (w1 := set_composition IME_STATUS_NORMAL false w) in *.
  unfold bind at 1 in H. unfold lift at 1 in H.
  destruct (first_pass (docs tr) (steps tr) 0 0 false)
    as [[counted hasAddAndDelete]|e] eqn:E1; [|discriminate].
  unfold bind at 1 in H.
  pose proof (@second_pass_follows (negb (before_is_current tr)) (enabled (w_storage w))
                (docs tr) (steps tr) 0%nat
                (if negb (before_is_current tr) then state_tr w
                 else mkTransform (before tr) (doc tr) []) 0 w1 eq_refl) as F.
  destruct (second_pass _ _ _ _ _ _ w1) as [w2 [u|e]] eqn:E2; [|discriminate].
  destruct F as [F _].
  { split.
    - destruct (negb (before_is_current tr)); constructor.
    - intros E. unfold w1 in E. cbn in E. congruence. }
  destruct F as (_ & _ & _ & _ & _ & (new & L & _) & _).
  rewrite E2 in L. cbn [fst] in L.
  rewrite Hen in H. unfold bind at 1 in H. unfold set_cursor at 1 in H.
  match type of H with
  | context [setSelection ?p] => set (pos := p) in *
  end.
  destruct ((0 <=? pos) && (pos <=? size (content (w_doc w2)))); [|discriminate].
  exists counted, hasAddAndDelete, new.
  rewrite andb_true_r in H.
  destruct (isStartChineseInput w && (composingStatus w =? IME_STATUS_CONTINUE)
            && hasAddAndDelete) eqn:C.
  - unfold run_command, setTimeout, bind, modify in H. injection H as <-.
    eexists. split; [reflexivity|]. split.
    + cbn. rewrite L. cbn. rewrite <- !app_assoc. reflexivity.
    + right. split; reflexivity.
  - unfold ret in H. injection H as <-.
    exists []. split; [reflexivity|]. split.
    + cbn. rewrite L. cbn. rewrite <- !app_assoc. reflexivity.
    + left. reflexivity.
Qed.

Lemma first_pass_inserts_only trdocs l :
  Forall inserts_only l ->
  forall index posOffset hasAddAndDelete,
    first_pass trdocs l index posOffset hasAddAndDelete
    = Ok (posOffset, hasAddAndDelete).
Proof.
  induction 1 as [|st l Hst Hl IH]; intros index posOffset hasAddAndDelete;
    cbn [first_pass]; [reflexivity|].
  destruct st as [from to s structure|]; [|apply IH].
  cbn in Hst. subst to. unfold delCount_of. rewrite Z.eqb_refl. cbn [rbind].
  rewrite IH. rewrite andb_false_r. f_equal. f_equal. lia.
Qed.

(** X6: a transaction that removes nothing leaves the caret where the
    transaction reported it: when the hook returns with tracking on, the last
    thing it did was to commit a selection at the reported anchor. *)
Theorem insertion_keeps_reported_caret tr w w' :
  ~ gated tr -> enabled (w_storage w) = true ->
  Forall inserts_only (steps tr) ->
  onTransaction tr w = (w', Ok tt) ->
  exists new,
    log w' = log w ++ new
             ++ [UpdateState false [setSelection (selection_from tr)] (w_doc w')].
Proof.
  intros G Hen Hins H.
  destruct (@hook_final_commit tr w w' G Hen H)
    as (counted & hasAddAndDelete & new & tail & E1 & L & T).
  rewrite (first_pass_inserts_only _ Hins) in E1. injection E1 as <- <-.
  exists new. rewrite L.
  destruct T as [->|[C _]].
  - cbn [negb]. repeat f_equal.
    destruct (composingStatus w =? IME_STATUS_NORMAL); [lia|].
    destruct (isStartChineseInput w && _); [lia|].
    destruct (negb (isStartChineseInput w) && _); lia.
  - rewrite andb_false_r in C. discriminate.
Qed.

(** X7: in the middle of a composition (an update signal and no start signal
    since the last turn) the deleted length never moves the caret: the hook,
    when it returns with tracking on, ends by committing a selection at the
    reported anchor, and runs no composition recovery. *)
Theorem composing_keeps_reported_caret tr w w' :
  ~ gated tr -> enabled (w_storage w) = true ->
  isStartChineseInput w = false -> composingStatus w = IME_STATUS_CONTINUE ->
  onTransaction tr w = (w', Ok tt) ->
  exists new,
    log w' = log w ++ new
             ++ [UpdateState false [setSelection (selection_from tr)] (w_doc w')].
Proof.
  intros G Hen Hs Hc H.
  destruct (@hook_final_commit tr w w' G Hen H)
    as (counted & hasAddAndDelete & new & tail & E1 & L & T).
  exists new. rewrite L. rewrite Hs, Hc in *. cbn in T |- *.
  destruct T as [->|[C _]]; [|discriminate].
  repeat f_equal. lia.
Qed.

Lemma second_pass_other_steps en trdocs l :
  Forall (fun st => st = OtherStep) l ->
  forall index t reAdd w, second_pass en trdocs l index t reAdd w = (w, Ok tt).
Proof.
  induction 1 as [|st l Hst Hl IH]; intros index t reAdd w; cbn [second_pass].
  - reflexivity.
  - subst st. apply IH.
Qed.

Lemma other_steps_run tr w :
  ~ gated tr ->
  Forall (fun st => st = OtherStep) (steps tr) ->
  onTransaction tr w
  = (if enabled (w_storage w) then set_cursor (selection_from tr) else ret tt)
      (set_composition IME_STATUS_NORMAL false w).
Proof.
  intros G Hother.
  destruct (not_gated G) as (G1 & G2 & G3 & G4 & G5).
  assert (Hins : Forall inserts_only (steps tr)).
  { eapply Forall_impl; [|exact Hother]. intros st ->. exact I. }
  unfold onTransaction, bind, get, modify, lift.
  rewrite G1, G2, G3, G4, G5. cbn [negb].
  rewrite (first_pass_inserts_only _ Hins).
  rewrite (second_pass_other_steps _ _ Hother).
  cbn [negb]. rewrite !andb_false_r.
  assert (P : (if composingStatus w =? IME_STATUS_NORMAL then 0
               else if isStartChineseInput w
                       && (composingStatus w =? IME_STATUS_CONTINUE)
                    then 0
                    else if negb (isStartChineseInput w)
                            && (composingStatus w =? IME_STATUS_CONTINUE)
                         then 0 else 0) = 0).
  { destruct (composingStatus w =? IME_STATUS_NORMAL); [reflexivity|].
    destruct (isStartChineseInput w && _); [reflexivity|].
    destruct (negb (isStartChineseInput w) && _); reflexivity. }
  rewrite P, Z.add_0_r.
  destruct (enabled (w_storage w)); [|reflexivity].
  destruct (set_cursor (selection_from tr) (set_composition IME_STATUS_NORMAL false w))
    as [w1 [[]|e]]; reflexivity.
Qed.

(** X8: steps that are no range replacements pass through: on a transaction
    made of such steps only the hook leaves the document as it is; with
    tracking off it commits nothing at all, and with tracking on its one
    commit is the selection at the reported anchor (a [RangeError] when that
    anchor is outside the document). *)
Theorem other_steps_pass_through tr w :
  ~ gated tr ->
  Forall (fun st => st = OtherStep) (steps tr) ->
  let w' := fst (onTransaction tr w) in
  w_doc w' = w_doc w
  /\ (enabled (w_storage w) = false ->
      log w' = log w /\ snd (onTransaction tr w) = Ok tt)
  /\ (enabled (w_storage w) = true ->
      if (0 <=? selection_from tr) && (selection_from tr <=? size (content (w_doc w)))
      then log w' = log w ++ [UpdateState false [setSelection (selection_from tr)] (w_doc w)]
           /\ snd (onTransaction tr w) = Ok tt
      else log w' = log w /\ snd (onTransaction tr w) = Throw RangeError).
Proof.
  intros G Hother. cbv zeta. rewrite (other_steps_run w G Hother).
  assert (E : set_cursor (selection_from tr) (set_composition IME_STATUS_NORMAL false w)
              = if (0 <=? selection_from tr)
                   && (selection_from tr <=? size (content (w_doc w)))
                then (emit (UpdateState false [setSelection (selection_from tr)] (w_doc w))
                           (set_selection (selection_from tr, selection_from tr)
                                          (set_composition IME_STATUS_NORMAL false w)),
                      Ok tt)
                else (set_composition IME_STATUS_NORMAL false w, Throw RangeError))
    by reflexivity.
  destruct (enabled (w_storage w)).
  - rewrite E.
    destruct ((0 <=? selection_from tr)
              && (selection_from tr <=? size (content (w_doc w)))); cbn;
      (split; [reflexivity|]); (split; [discriminate|]); intros _; split; reflexivity.
  - cbn. split; [reflexivity|]. split; [intros _; split; reflexivity|discriminate].
Qed.

End Cursor.

(** *** The marks of inserted content *)

Section InsertionMarking.
Import Transformer Scenarios.

Lemma MarkType_eqb_refl ty : MarkType_eqb ty ty = true.
Proof. destruct ty; cbn; try reflexivity. apply String.eqb_refl. Qed.

Lemma has_mark_remove_same ty m : has_mark ty (remove_type ty m) = false.
Proof.
  unfold has_mark, remove_type. induction m as [|x m IH]; cbn; [reflexivity|].
  destruct (MarkType_eqb (mark_type x) ty) eqn:E; cbn; [exact IH|].
  now rewrite E.
Qed.

Lemma has_mark_remove_other ty ty' m :
  MarkType_eqb ty ty' = false ->
  has_mark ty (remove_type ty' m) = has_mark ty m.
Proof.
  intros Hne. unfold has_mark, remove_type.
  induction m as [|x m IH]; cbn; [reflexivity|].
  destruct (MarkType_eqb (mark_type x) ty') eqn:E; cbn.
  - apply MarkType_eqb_eq in E. rewrite E.
    assert (K : MarkType_eqb ty' ty = false).
    { destruct (MarkType_eqb ty' ty) eqn:K; [|reflexivity].
      apply MarkType_eqb_eq in K. subst. now rewrite MarkType_eqb_refl in Hne. }
    rewrite K. exact IH.
  - now rewrite IH.
Qed.

Lemma nth_map_range (A : Type) (f : A -> A) from to l : forall p n,
  nth_error (map_range f from to p l) n
  = option_map (fun x => if (from <=? p + Z.of_nat n) && (p + Z.of_nat n <? to)
                         then f x else x)
               (nth_error l n).
Proof.
  induction l as [|x l IH]; intros p [|n]; cbn [map_range nth_error option_map];
    try reflexivity.
  - now rewrite Z.add_0_r.
  - rewrite IH. replace (p + 1 + Z.of_nat n) with (p + Z.of_nat (S n)) by lia.
    reflexivity.
Qed.

Lemma tr_addMark_doc t a b m t' :
  tr_addMark t a b m = Ok t' -> remark (addToSet m) (t_doc t) a b = Some (t_doc t').
Proof.
  unfold tr_addMark. destruct (remark _ _ _ _); [|discriminate]. now intros [= <-].
Qed.

Lemma tr_removeMark_doc t a b ty t' :
  tr_removeMark t a b ty = Ok t' ->
  remark (remove_type ty) (t_doc t) a b = Some (t_doc t').
Proof.
  unfold tr_removeMark. destruct (remark _ _ _ _); [|discriminate]. now intros [= <-].
Qed.

(** The insertion part of a step, followed by nothing but the commit. *)
Lemma insertion_only_step en d from to s t reAdd w w' t' reAdd' :
  negb (from =? to) && en = false -> slice_size s <> 0 ->
  second_pass_step en d from to s t reAdd w = (w', Ok (t', reAdd')) ->
  reAdd' = reAdd
  /\ exists t1,
      (if en
       then tr_addMark t (from + reAdd) (from + reAdd + slice_size s)
                       (mkMark insertion (dataOpUserId (w_storage w))
                               (dataOpUserNickname (w_storage w))
                               (Some (minute_of (clock w (reads w)))))
       else tr_removeMark t (from + reAdd) (from + reAdd + slice_size s) insertion)
      = Ok t1
      /\ tr_removeMark t1 (from + reAdd) (from + reAdd + slice_size s) deletion = Ok t'.
Proof.
  intros Hno Hs H. apply Z.eqb_neq in Hs.
  unfold second_pass_step in H. rewrite Hno, Hs in H. cbn [negb] in H.
  unfold bind, lift, ret, get, getMinuteTime, commit, rbind in H.
  repeat match goal with
         | H : context [match ?x with _ => _ end] |- _ =>
             destruct x eqn:?; try discriminate
         | H : (_, _) = (_, _) |- _ => injection H; clear H; intros; subst
         end;
    (split; [reflexivity|]); eexists; (split; [reflexivity|eassumption]).
Qed.

(** X9: when a step inserts content and nothing is re-added for it (the
    step removed nothing, or tracking is off), the hook issues exactly two
    calls over the inserted range [[from + reAdd, from + reAdd + size)]:
    with tracking on [addMark] of the Insertion mark with the storage's user
    id and nickname and the minute just read, with tracking off [removeMark]
    of the Insertion mark, and then [removeMark] of the Deletion mark.  The
    tokens outside the range are as they were and every token is the one it
    was up to its marks; a character inside the range carries no Deletion
    mark, and with tracking off no Insertion mark either. *)
Theorem inserted_text_is_not_pending_deletion
        en d from to s t reAdd w w' t' reAdd' :
  negb (from =? to) && en = false -> slice_size s <> 0 ->
  second_pass_step en d from to s t reAdd w = (w', Ok (t', reAdd')) ->
  t_calls t'
  = t_calls t
    ++ [if en
        then addMark (from + reAdd) (from + reAdd + slice_size s)
                     (mkMark insertion (dataOpUserId (w_storage w))
                             (dataOpUserNickname (w_storage w))
                             (Some (minute_of (clock w (reads w)))))
        else removeMark (from + reAdd) (from + reAdd + slice_size s) insertion;
        removeMark (from + reAdd) (from + reAdd + slice_size s) deletion]
  /\ forall n tok,
      nth_error (tokens (content (t_doc t'))) n = Some tok ->
      exists tok0,
        nth_error (tokens (content (t_doc t))) n = Some tok0
        /\ tok = on_marks (fun _ => token_marks tok) tok0
        /\ if (from + reAdd <=? Z.of_nat n)
              && (Z.of_nat n <? from + reAdd + slice_size s)
           then forall c m,
                  tok0 = TChar c m ->
                  has_mark deletion (token_marks tok) = false
                  /\ (en = false -> has_mark insertion (token_marks tok) = false)
           else tok = tok0.
Proof.
  intros Hno Hs H.
  destruct (@insertion_only_step en d from to s t reAdd w w' t' reAdd' Hno Hs H)
    as (_ & t1 & E1 & E2).
  set (mk := mkMark insertion (dataOpUserId (w_storage w))
                    (dataOpUserNickname (w_storage w))
                    (Some (minute_of (clock w (reads w))))) in *.
  split.
  { rewrite (tr_removeMark_calls _ _ _ _ E2).
    destruct en.
    - rewrite (tr_addMark_calls _ _ _ _ E1). now rewrite <- app_assoc.
    - rewrite (tr_removeMark_calls _ _ _ _ E1). now rewrite <- app_assoc. }
  intros n tok Hn.
  apply tr_removeMark_doc, remark_tokens in E2.
  rewrite E2, nth_map_range in Hn.
  assert (E1' : tokens (content (t_doc t1))
                = map_range (on_marks (if en then addToSet mk else remove_type insertion))
                            (from + reAdd) (from + reAdd + slice_size s) 0
                            (tokens (content (t_doc t)))).
  { destruct en.
    - apply tr_addMark_doc, remark_tokens in E1. exact E1.
    - apply tr_removeMark_doc, remark_tokens in E1. exact E1. }
  rewrite E1', nth_map_range in Hn.
  destruct (nth_error (tokens (content (t_doc t))) n) as [tok0|]; [|discriminate].
  cbn [option_map] in Hn. rewrite Z.add_0_l in Hn. injection Hn as <-.
  exists tok0. split; [reflexivity|].
  destruct ((from + reAdd <=? Z.of_nat n) && (Z.of_nat n <? from + reAdd + slice_size s)).
  - split; [destruct tok0; reflexivity|].
    intros c m ->. cbn [on_marks token_marks]. split.
    + apply has_mark_remove_same.
    + intros ->. rewrite has_mark_remove_other by reflexivity.
      apply has_mark_remove_same.
  - split; [destruct tok0; reflexivity|reflexivity].
Qed.

End InsertionMarking.

(** *** One commit per transaction under construction *)

Section Commits.
Import Transformer Scenarios.

Lemma tr_addMark_before t a b m t' :
  tr_addMark t a b m = Ok t' -> t_before t' = t_before t.
Proof.
  unfold tr_addMark. destruct (remark _ _ _ _); [|discriminate]. now intros [= <-].
Qed.

Lemma tr_removeMark_before t a b ty t' :
  tr_removeMark t a b ty = Ok t' -> t_before t' = t_before t.
Proof.
  unfold tr_removeMark. destruct (remark _ _ _ _); [|discriminate]. now intros [= <-].
Qed.

Lemma tr_step_before t a b s structure t' :
  tr_step t a b s structure = Ok t' -> t_before t' = t_before t.
Proof.
  unfold tr_step. destruct (ReplaceStep_apply _ _ _ _ _); [|discriminate].
  now intros [= <-].
Qed.

Lemma run_skipSteps_before l : forall t t',
  run_skipSteps t l = Ok t' -> t_before t' = t_before t.
Proof.
  induction l as [|[a b] l IH]; intros t t'; cbn.
  - now intros [= <-].
  - destruct (tr_step t a b Slice_empty false) as [t1|e] eqn:E; cbn; [|discriminate].
    intros H. apply IH in H. apply tr_step_before in E. congruence.
Qed.

(** A step that returns has committed the transaction under construction:
    that transaction still starts from the same document, which was the
    editor's, and the editor now has its current document. *)
Lemma step_has_committed en d from to s t reAdd w w' t' reAdd' :
  second_pass_step en d from to s t reAdd w = (w', Ok (t', reAdd')) ->
  t_before t' = t_before t
  /\ w_doc w' = t_doc t'
  /\ Node_eqb (t_before t) (w_doc w) = true.
Proof.
  intros H. unfold second_pass_step in H.
  unfold bind, lift, ret, get, getMinuteTime, commit, rbind in H.
  repeat match goal with
         | H : context [match ?x with _ => _ end] |- _ =>
             destruct x eqn:?; try discriminate
         | H : (_, _) = (_, _) |- _ => injection H; clear H; intros; subst
         end;
    repeat match goal with
           | H : tr_addMark _ _ _ _ = Ok _ |- _ => apply tr_addMark_before in H
           | H : tr_removeMark _ _ _ _ = Ok _ |- _ => apply tr_removeMark_before in H
           | H : tr_step _ _ _ _ _ = Ok _ |- _ => apply tr_step_before in H
           | H : run_skipSteps _ _ = Ok _ |- _ => apply run_skipSteps_before in H
           end;
    cbn [fst w_doc set_reads set_doc emit] in *;
    (split; [congruence|]); (split; [reflexivity|]); congruence.
Qed.

(** X10: the transaction under construction can be committed once.  After a
    step whose commit changed the document (the transaction's current
    document differs from the one it started from), every later
    range-replacement step of the same incoming transaction ends in an
    exception, whatever it replaces. *)
Theorem later_replace_step_fails
        en d from to s t reAdd w w' t' reAdd' en2 d2 from2 to2 s2 :
  second_pass_step en d from to s t reAdd w = (w', Ok (t', reAdd')) ->
  Node_eqb (t_before t) (t_doc t') = false ->
  exists e, snd (second_pass_step en2 d2 from2 to2 s2 t' reAdd' w') = Throw e.
Proof.
  intros H Hchanged.
  destruct (@step_has_committed en d from to s t reAdd w w' t' reAdd' H) as (B & D & _).
  destruct (second_pass_step en2 d2 from2 to2 s2 t' reAdd' w')
    as [w2 [[t2 r2]|e]] eqn:E2; [|exists e; reflexivity].
  destruct (@step_has_committed en2 d2 from2 to2 s2 t' reAdd' w' w2 t2 r2 E2)
    as (_ & _ & K).
  rewrite B, D in K. congruence.
Qed.

End Commits.

(** *** The resolver, further *)

Section ResolverMore.
Import Resolver Scenarios.

Lemma resolve_all_cons op r l st :
  resolve_all op (r :: l) st = resolve_all op l (resolve_range op r st).
Proof. reflexivity. Qed.

Lemma keeps_complement r :
  is_tracked r = true ->
  keeps TRACK_COMMAND_ACCEPT r = negb (keeps TRACK_COMMAND_REJECT r).
Proof.
  unfold is_tracked, keeps. destruct (range_type r); cbn; try reflexivity.
  discriminate.
Qed.

Lemma shrink_sum l : forall o1 c1 o2 c2,
  Forall (fun r => is_tracked r = true) l ->
  fst (resolve_all TRACK_COMMAND_ACCEPT l (o1, c1))
  + fst (resolve_all TRACK_COMMAND_REJECT l (o2, c2))
  = o1 + o2 + total_length l.
Proof.
  induction l as [|r l IH]; intros o1 c1 o2 c2 H; cbn [total_length].
  - cbn. lia.
  - inversion H as [|? ? Hr Hl]; subst.
    rewrite !resolve_all_cons. unfold resolve_range.
    rewrite (keeps_complement _ Hr).
    destruct (keeps TRACK_COMMAND_REJECT r); cbn [negb]; rewrite IH by exact Hl; lia.
Qed.

(** X11: accepting and rejecting are complementary on tracked ranges: what
    accept confirms reject discards and conversely, so over the same ranges
    the lengths the two commands remove add up to the total length of the
    ranges. *)
Theorem accept_and_reject_split_the_ranges (l : list MarkRange) :
  Forall (fun r => is_tracked r = true) l ->
  (forall r, In r l ->
             keeps TRACK_COMMAND_ACCEPT r = negb (keeps TRACK_COMMAND_REJECT r))
  /\ fst (resolve_all TRACK_COMMAND_ACCEPT l (0, []))
     + fst (resolve_all TRACK_COMMAND_REJECT l (0, []))
     = total_length l.
Proof.
  intros H. split.
  - intros r Hr. apply keeps_complement. rewrite Forall_forall in H. now apply H.
  - rewrite shrink_sum by exact H. lia.
Qed.

Lemma resolve_all_ordered op l : forall lo o cs,
  ordered lo l -> 0 <= o <= lo -> Forall resolver_call cs ->
  Forall resolver_call (snd (resolve_all op l (o, cs))).
Proof.
  induction l as [|r l IH]; intros lo o cs Hord Ho Hcs; [exact Hcs|].
  destruct Hord as (H1 & H2 & H3).
  rewrite resolve_all_cons. unfold resolve_range.
  destruct (keeps op r).
  - apply IH with (lo := range_to r); [exact H3|lia|].
    apply Forall_app. split; [exact Hcs|].
    constructor; [|constructor; [|constructor]]; cbn; (split; [auto|lia]).
  - apply IH with (lo := range_to r); [exact H3|lia|].
    apply Forall_app. split; [exact Hcs|].
    constructor; [|constructor]. cbn. lia.
Qed.

(** X12: on mark ranges that come in document order without overlap, none
    before position 0, the running offset never pushes a call out of the
    document's coordinates: every call the resolver makes is a [removeMark]
    of the Insertion or Deletion mark or a [deleteRange], on a range
    [[from, to)] with [0 <= from <= to]. *)
Theorem ordered_ranges_resolve_in_bounds op (l : list MarkRange) :
  ordered 0 l ->
  Forall resolver_call (snd (resolve_all op l (0, []))).
Proof.
  intros H. apply resolve_all_ordered with (lo := 0); [exact H|lia|constructor].
Qed.

(** A text carrying both marks gives two ranges over the same positions;
    rejecting then asks for a range that starts before the document. *)
Lemma overlapping_ranges_resolve_out_of_bounds :
  snd (resolve_all TRACK_COMMAND_REJECT
                   [mkMarkRange (mkMark insertion "" "" None) 2 5;
                    mkMarkRange (mkMark deletion "" "" None) 2 5] (0, []))
  = [deleteRange 2 5; removeMark (-1) 2 insertion; removeMark (-1) 2 deletion].
Proof. reflexivity. Qed.

Section AnyHostMore.
Variable isMarkActive : World -> MarkType -> bool.
Variable getMarkRange : World -> MarkType -> option (Z * Z).
Variable getMarksBetween : Z -> Z -> Node -> list MarkRange.
Variable steps_length : Node -> list Call -> nat.
Variable doc_after : Node -> list Call -> Node.

Let scope := scope isMarkActive getMarkRange getMarksBetween.
Let changeTrack :=
  changeTrack isMarkActive getMarkRange getMarksBetween steps_length doc_after.

(** X13: accept-all and reject-all take the whole document
    [[0, doc.content.size)] as their scope and act as accept and reject
    there.  Neither the selection nor the marks active at the caret play a
    part: for any selection and any answers of [isMarkActive] and
    [getMarkRange] the ranges in scope, the transactions committed and the
    resulting document are the same. *)
Theorem all_commands_ignore_the_selection (op : TRACK_COMMAND_TYPE) (w : World)
        (sel : Z * Z)
        (isMarkActive' : World -> MarkType -> bool)
        (getMarkRange' : World -> MarkType -> option (Z * Z)) :
  op = TRACK_COMMAND_ACCEPT_ALL \/ op = TRACK_COMMAND_REJECT_ALL ->
  scope op w
  = (getMarksBetween 0 (size (content (w_doc w))) (w_doc w),
     if op_eqb op TRACK_COMMAND_ACCEPT_ALL
     then TRACK_COMMAND_ACCEPT else TRACK_COMMAND_REJECT)
  /\ Resolver.scope isMarkActive' getMarkRange' getMarksBetween op
                    (set_selection sel w)
     = scope op w
  /\ log (Resolver.changeTrack isMarkActive' getMarkRange' getMarksBetween
                               steps_length doc_after op (set_selection sel w))
     = log (changeTrack op w)
  /\ w_doc (Resolver.changeTrack isMarkActive' getMarkRange' getMarksBetween
                                 steps_length doc_after op (set_selection sel w))
     = w_doc (changeTrack op w).
Proof.
  intros Hop. split; [destruct Hop as [-> | ->]; reflexivity|].
  split; [destruct Hop as [-> | ->]; reflexivity|].
  unfold changeTrack, Resolver.changeTrack, Resolver.scope.
  destruct Hop as [-> | ->]; cbn [op_eqb orb andb];
    change (w_doc (set_selection sel w)) with (w_doc w);
    destruct (filter is_tracked _); try (split; reflexivity);
    destruct (resolve_all _ _ _) as [o calls];
    destruct (negb _); split; reflexivity.
Qed.

(** X14: accept or reject at a collapsed caret does nothing when neither an
    Insertion nor a Deletion mark is active there, and nothing either when
    the host has no range for the mark that is active. *)
Theorem caret_without_range_is_noop (op : TRACK_COMMAND_TYPE) (w : World) :
  op = TRACK_COMMAND_ACCEPT \/ op = TRACK_COMMAND_REJECT ->
  fst (w_selection w) = snd (w_selection w) ->
  (isMarkActive w insertion = false /\ isMarkActive w deletion = false)
  \/ (isMarkActive w insertion = true /\ getMarkRange w insertion = None)
  \/ (isMarkActive w insertion = false /\ getMarkRange w deletion = None) ->
  changeTrack op w = w.
Proof.
  intros Hop Hsel H. unfold changeTrack, Resolver.changeTrack, Resolver.scope.
  rewrite Hsel, Z.eqb_refl.
  destruct Hop as [-> | ->]; cbn [op_eqb orb andb];
    destruct H as [[Hi Hd]|[[Hi Hr]|[Hi Hr]]];
    rewrite Hi; try rewrite Hd; try rewrite Hr;
    try (destruct (isMarkActive w deletion)); reflexivity.
Qed.

Lemma resolve_all_calls op l : forall o cs,
  Forall (fun c => match c with
                   | removeMark _ _ ty => ty = insertion \/ ty = deletion
                   | deleteRange _ _ => True
                   | _ => False
                   end) cs ->
  Forall (fun c => match c with
                   | removeMark _ _ ty => ty = insertion \/ ty = deletion
                   | deleteRange _ _ => True
                   | _ => False
                   end) (snd (resolve_all op l (o, cs))).
Proof.
  induction l as [|r l IH]; intros o cs Hcs; [exact Hcs|].
  rewrite resolve_all_cons. unfold resolve_range.
  destruct (keeps op r); apply IH; apply Forall_app; (split; [exact Hcs|]).
  - constructor; [|constructor; [|constructor]]; cbn; auto.
  - constructor; [|constructor]. exact I.
Qed.

(** X15: the resolver commits at most one transaction, flags it as manual,
    and makes it of [removeMark] calls for the Insertion or Deletion mark and
    of [deleteRange] calls only: it never adds a mark.  The storage, the
    composition variables and the timers stay as they are. *)
Theorem changeTrack_commits_once (op : TRACK_COMMAND_TYPE) (w : World) :
  let w' := changeTrack op w in
  w_storage w' = w_storage w
  /\ composingStatus w' = composingStatus w
  /\ isStartChineseInput w' = isStartChineseInput w
  /\ timers w' = timers w
  /\ (w' = w
      \/ exists calls,
          log w' = log w ++ [UpdateState true calls (w_doc w')]
          /\ steps_length (w_doc w) calls <> 0%nat
          /\ w_doc w' = doc_after (w_doc w) calls
          /\ Forall (fun c => match c with
                              | removeMark _ _ ty => ty = insertion \/ ty = deletion
                              | deleteRange _ _ => True
                              | _ => False
                              end) calls).
Proof.
  cbv zeta. unfold changeTrack, Resolver.changeTrack.
  destruct (Resolver.scope _ _ _ op w) as [found op'].
  destruct (filter is_tracked found) as [|r l] eqn:E.
  - repeat (split; [reflexivity|]). left. reflexivity.
  - pose proof (@resolve_all_calls op' (r :: l) 0 [] (Forall_nil _)) as F.
    destruct (resolve_all op' (r :: l) (0, [])) as [o calls]. cbn [snd] in F.
    destruct (steps_length (w_doc w) calls =? 0)%nat eqn:S; cbn [negb].
    + repeat (split; [reflexivity|]). left. reflexivity.
    + repeat (split; [reflexivity|]). right. exists calls.
      split; [reflexivity|]. split; [now apply Nat.eqb_neq|].
      split; [reflexivity|exact F].
Qed.

End AnyHostMore.

End ResolverMore.

(** *** The commands, the minute and the skip steps *)

Section Misc.
Import Transformer Commands Scenarios.

(** X16: toggling twice restores the storage; a configured callback has then
    been called twice, first with the negated status and then with the
    original one. *)
Theorem toggle_twice_restores (w : World) :
  w_storage (toggleTrackChangeStatus (toggleTrackChangeStatus w)) = w_storage w
  /\ w_doc (toggleTrackChangeStatus (toggleTrackChangeStatus w)) = w_doc w
  /\ log (toggleTrackChangeStatus (toggleTrackChangeStatus w))
     = log w
       ++ match onStatusChange (w_storage w) with
          | Some cb => [StatusChange cb (negb (enabled (w_storage w)));
                        StatusChange cb (enabled (w_storage w))]
          | None => []
          end.
Proof.
  unfold toggleTrackChangeStatus, call_onStatusChange, with_enabled.
  destruct w as [d sel [en uid nick [cb|]] cs st de ti cl rd lg]; cbn.
  - rewrite negb_involutive. repeat split. now rewrite <- app_assoc.
  - rewrite negb_involutive. repeat split. now rewrite app_nil_r.
Qed.

(** X17: the status commands and the attribution command do not interfere:
    [getTrackChangeStatus] reads what [setTrackChangeStatus] stored, the
    last of two sets wins, [updateOpUserOption] stores the two names without
    touching the status or calling the callback, and it commutes with
    [setTrackChangeStatus]. *)
Theorem status_and_attribution_commands (w : World) (a b : bool) (id nick : string) :
  getTrackChangeStatus (setTrackChangeStatus b w) = b
  /\ w_storage (setTrackChangeStatus b (setTrackChangeStatus a w))
     = w_storage (setTrackChangeStatus b w)
  /\ getTrackChangeStatus (updateOpUserOption id nick w) = getTrackChangeStatus w
  /\ dataOpUserId (w_storage (updateOpUserOption id nick w)) = id
  /\ dataOpUserNickname (w_storage (updateOpUserOption id nick w)) = nick
  /\ log (updateOpUserOption id nick w) = log w
  /\ updateOpUserOption id nick (setTrackChangeStatus b w)
     = setTrackChangeStatus b (updateOpUserOption id nick w).
Proof.
  unfold getTrackChangeStatus, setTrackChangeStatus, updateOpUserOption,
    call_onStatusChange, with_enabled.
  destruct w as [d sel [en uid nk [cb|]] cs st de ti cl rd lg]; cbn;
    repeat split; reflexivity.
Qed.

Lemma minute_of_spec t : minute_of t = 60000 * ((t + 30000) / 60000).
Proof. unfold minute_of. lia. Qed.

(** X18: [getMinuteTime]'s rounding is monotone and idempotent, and it
    batches: all the readings from 30 seconds before a whole minute up to,
    but not including, 30 seconds after it get that minute. *)
Theorem minute_rounding_batches :
  (forall t t', t <= t' -> minute_of t <= minute_of t')
  /\ (forall t, minute_of (minute_of t) = minute_of t)
  /\ (forall k t, 60000 * k - 30000 <= t < 60000 * k + 30000 ->
                  minute_of t = 60000 * k).
Proof.
  assert (B : forall k t, 60000 * k - 30000 <= t < 60000 * k + 30000 ->
                          minute_of t = 60000 * k).
  { intros k t H. rewrite minute_of_spec. f_equal. symmetry.
    apply Z.div_unique with (r := t + 30000 - 60000 * k); lia. }
  split; [|split; [|exact B]].
  - intros t t' H. rewrite !minute_of_spec.
    apply Z.mul_le_mono_nonneg_l; [lia|]. apply Z.div_le_mono; lia.
  - intros t. rewrite (minute_of_spec t). apply B. lia.
Qed.

Lemma nodeSize_nonneg n : 0 <= nodeSize n.
Proof.
  induction n as [m s|name m|name m c IH] using Node_induction; cbn [nodeSize];
    [lia|lia|].
  change ((fix sum (l : list Node) : Z :=
             match l with
             | [] => 0
             | x :: r => nodeSize x + sum r
             end) c) with (size c).
  assert (0 <= size c); [|lia].
  induction IH as [|x r Hx Hr IHr]; cbn [size]; lia.
Qed.

Lemma removed_length_snoc l a b :
  removed_length (l ++ [(a, b)]) = removed_length l + (b - a).
Proof.
  induction l as [|[x y] l IH]; cbn [removed_length app]; [lia|]. rewrite IH. lia.
Qed.

Lemma travel_grows_refl st : travel_grows st st 0.
Proof. unfold travel_grows. repeat split; try lia. auto. Qed.

Lemma travel_grows_trans st st1 st2 a b :
  travel_grows st st1 a -> travel_grows st1 st2 b -> travel_grows st st2 (a + b).
Proof.
  intros (A1 & R1 & F1) (A2 & R2 & F2). unfold travel_grows.
  split; [lia|]. split; [lia|auto].
Qed.

Lemma travel_leaf_grows n start st :
  travel_grows st (travel_leaf n start st)
               (if has_mark insertion (marks n) then nodeSize n else 0).
Proof.
  unfold travel_leaf. destruct (has_mark insertion (marks n)).
  - unfold travel_grows. cbn [addedEmptyOffset skipSteps].
    split; [reflexivity|]. split.
    + rewrite removed_length_snoc. lia.
    + intros F. apply Forall_app. split; [exact F|].
      constructor; [|constructor]. cbn. pose proof (nodeSize_nonneg n). lia.
  - apply travel_grows_refl.
Qed.

Lemma forEach_from_grows (f : Node -> Z -> Travel -> Travel) (c : list Node) :
  Forall (fun n => forall q st,
              travel_grows st (f n q st) (leaves_of_node (has_mark insertion) n)) c ->
  forall p st, travel_grows st (forEach_from f c p st) (discarded_size c).
Proof.
  induction 1 as [|x r Hx Hr IH]; intros p st; cbn [forEach_from].
  - apply travel_grows_refl.
  - unfold discarded_size. cbn [leaves_size].
    eapply travel_grows_trans; [apply Hx|apply IH].
Qed.

Lemma travel_node_grows n :
  forall start st,
    travel_grows st (travel_node n start st) (leaves_of_node (has_mark insertion) n).
Proof.
  induction n as [m s|name m|name m c IH] using Node_induction; intros start st.
  - apply travel_leaf_grows.
  - apply travel_leaf_grows.
  - cbn [travel_node leaves_of_node].
    destruct (negb (size c =? 0)).
    + unfold forEach. apply forEach_from_grows.
      eapply Forall_impl; [|exact IH]. intros n Hn q st'. apply Hn.
    + apply travel_leaf_grows.
Qed.

(** X19: the skip steps [travelContent] collects for an inverted content
    remove in total exactly the size of its leaves that carry the Insertion
    mark, which is also the final [addedEmptyOffset]; no skip step has its
    end before its start; and [reAddOffset] has gone down by the same
    size. *)
Theorem skip_steps_remove_the_discarded (c : list Node) (parentOffset reAdd : Z) :
  let st := travelContent c parentOffset (mkTravel [] 0 reAdd) in
  removed_length (skipSteps st) = discarded_size c
  /\ addedEmptyOffset st = discarded_size c
  /\ reAddOffset st = reAdd - discarded_size c
  /\ Forall (fun x => fst x <= snd x) (skipSteps st).
Proof.
  cbv zeta.
  assert (G : travel_grows (mkTravel [] 0 reAdd)
                           (travelContent c parentOffset (mkTravel [] 0 reAdd))
                           (discarded_size c)).
  { unfold travelContent, forEach. apply forEach_from_grows.
    apply Forall_forall. intros n _ q st'. apply travel_node_grows. }
  destruct G as (A & R & F). cbn in A, R.
  split; [lia|]. split; [lia|]. split.
  - rewrite travelContent_reAddOffset. reflexivity.
  - apply F. constructor.
Qed.

End Misc.

(** *** The further theorems at concrete inputs *)

Section MoreWitnesses.
Import Transformer Resolver Commands Scenarios.

Lemma typed_not_gated : ~ gated typed.
Proof. intros [H|[H|[H|[H|H]]]]; discriminate H. Defined.

Lemma composed_not_gated : ~ gated composed.
Proof. intros [H|[H|[H|[H|H]]]]; discriminate H. Defined.

Lemma bolding_not_gated : ~ gated bolding.
Proof. intros [H|[H|[H|[H|H]]]]; discriminate H. Defined.

Lemma disabled_hook_only_strips_marks_witness :
  enabled (w_storage (session_off typed_after 3 0)) = false
  /\ w_selection (fst (onTransaction typed (session_off typed_after 3 0))) = (3, 3)
  /\ timers (fst (onTransaction typed (session_off typed_after 3 0))) = [].
Proof.
  split; [reflexivity|].
  destruct (@disabled_hook_only_strips_marks typed (session_off typed_after 3 0) eq_refl)
    as (H1 & H2 & _).
  split; [exact H1|exact H2].
Defined.

Lemma disabled_hook_keeps_text_witness :
  demarked typed_after (w_doc (fst (onTransaction typed (session_off typed_after 3 0)))).
Proof.
  exact (@disabled_hook_keeps_text typed (session_off typed_after 3 0) eq_refl eq_refl).
Defined.

Lemma insertion_keeps_reported_caret_witness :
  exists new,
    log (fst (onTransaction typed (session typed_after 3 0)))
    = [] ++ new
      ++ [UpdateState false [setSelection 3]
                      (w_doc (fst (onTransaction typed (session typed_after 3 0))))].
Proof.
  destruct (onTransaction typed (session typed_after 3 0)) as [w' [[]|e]] eqn:E.
  - cbn [fst].
    apply (@insertion_keeps_reported_caret typed (session typed_after 3 0) w'
             typed_not_gated eq_refl).
    + constructor; [reflexivity|constructor].
    + exact E.
  - vm_compute in E. discriminate E.
Defined.

Lemma composing_keeps_reported_caret_witness :
  exists new,
    log (fst (onTransaction composed (compositionupdate (session composed_after 3 0))))
    = [] ++ new
      ++ [UpdateState false [setSelection 3]
            (w_doc (fst (onTransaction composed
                                       (compositionupdate (session composed_after 3 0)))))].
Proof.
  destruct (onTransaction composed (compositionupdate (session composed_after 3 0)))
    as [w' [[]|e]] eqn:E.
  - cbn [fst].
    exact (@composing_keeps_reported_caret
             composed (compositionupdate (session composed_after 3 0)) w'
             composed_not_gated eq_refl eq_refl eq_refl E).
  - vm_compute in E. discriminate E.
Defined.

Lemma other_steps_pass_through_witness :
  w_doc (fst (onTransaction bolding (session typed_after 3 0))) = typed_after
  /\ log (fst (onTransaction bolding (session typed_after 3 0)))
     = [UpdateState false [setSelection 3] typed_after]
  /\ log (fst (onTransaction bolding (session_off typed_after 3 0))) = [].
Proof.
  destruct (@other_steps_pass_through bolding (session typed_after 3 0) bolding_not_gated)
    as (H1 & _ & H3); [constructor; [reflexivity|constructor]|].
  destruct (@other_steps_pass_through bolding (session_off typed_after 3 0)
              bolding_not_gated) as (_ & H2 & _); [constructor; [reflexivity|constructor]|].
  split; [exact H1|]. split.
  - exact (proj1 (H3 eq_refl)).
  - exact (proj1 (H2 eq_refl)).
Defined.

Lemma inserted_text_is_not_pending_deletion_witness :
  has_mark deletion [mkMark insertion "u1" "Ann" (Some 0)] = false
  /\ forall tok,
       nth_error (tokens (content (w_doc (fst (second_pass_step
                    true (Some typed_before) 1 1 (mkSlice [Text [] "hi"] 0 0)
                    (state_tr (session typed_after 3 0)) 0
                    (session typed_after 3 0)))))) 1 = Some tok ->
       has_mark deletion (token_marks tok) = false.
Proof.
  split; [reflexivity|]. intros tok Hn.
  destruct (second_pass_step true (Some typed_before) 1 1 (mkSlice [Text [] "hi"] 0 0)
                             (state_tr (session typed_after 3 0)) 0
                             (session typed_after 3 0))
    as [w' [[t' r']|e]] eqn:E.
  - cbn [fst] in Hn.
    destruct (@step_has_committed _ _ _ _ _ _ _ _ _ _ _ E) as (_ & D & _).
    rewrite D in Hn.
    destruct (@inserted_text_is_not_pending_deletion
                true (Some typed_before) 1 1 (mkSlice [Text [] "hi"] 0 0)
                (state_tr (session typed_after 3 0)) 0 (session typed_after 3 0)
                w' t' r' eq_refl ltac:(discriminate) E)
      as (_ & K).
    destruct (K 1%nat tok Hn) as (tok0 & K0 & _ & K1).
    vm_compute in K0. injection K0 as <-.
    exact (proj1 (K1 "h"%char [] eq_refl)).
  - vm_compute in E. discriminate E.
Defined.

Lemma later_replace_step_fails_witness :
  match snd (second_pass_step true (Some abcd) 1 2 Slice_empty
                              (state_tr (session bd 1 0)) 0 (session bd 1 0)) with
  | Ok (t1, reAdd1) =>
      exists e,
        snd (second_pass_step
               true (Some bcd) 2 3 Slice_empty t1 reAdd1
               (fst (second_pass_step true (Some abcd) 1 2 Slice_empty
                                      (state_tr (session bd 1 0)) 0 (session bd 1 0))))
        = Throw e
  | Throw _ => False
  end.
Proof.
  destruct (second_pass_step true (Some abcd) 1 2 Slice_empty
                             (state_tr (session bd 1 0)) 0 (session bd 1 0))
    as [w1 [[t1 r1]|e]] eqn:E; cbn [fst snd].
  - apply (@later_replace_step_fails
             true (Some abcd) 1 2 Slice_empty (state_tr (session bd 1 0)) 0
             (session bd 1 0) w1 t1 r1 true (Some bcd) 2 3 Slice_empty E).
    vm_compute in E. injection E as _ <- _. vm_compute. reflexivity.
  - vm_compute in E. discriminate E.
Defined.

Lemma accept_and_reject_split_the_ranges_witness :
  fst (resolve_all TRACK_COMMAND_ACCEPT [del_2_5; ins_7_9] (0, []))
  + fst (resolve_all TRACK_COMMAND_REJECT [del_2_5; ins_7_9] (0, []))
  = 5.
Proof.
  apply (proj2 (@accept_and_reject_split_the_ranges [del_2_5; ins_7_9]
                  ltac:(repeat constructor))).
Defined.

Lemma ordered_ranges_resolve_in_bounds_witness :
  Forall resolver_call
         (snd (resolve_all TRACK_COMMAND_REJECT [del_2_5; ins_7_9] (0, []))).
Proof.
  apply ordered_ranges_resolve_in_bounds. cbn. lia.
Defined.

Lemma all_commands_ignore_the_selection_witness :
  log (changeTrack (fixed_active true true) (fixed_range (Some (1, 2)) None)
                   (fun _ _ _ => [del_2_5])
                   (fun _ calls => List.length calls) (fun d _ => d)
                   TRACK_COMMAND_REJECT_ALL
                   (set_selection (2, 4) (session flat_before 1 0)))
  = log (changeTrack (fixed_active false false) (fixed_range None None)
                     (fun _ _ _ => [del_2_5])
                     (fun _ calls => List.length calls) (fun d _ => d)
                     TRACK_COMMAND_REJECT_ALL (session flat_before 1 0))
  /\ log (changeTrack (fixed_active false false) (fixed_range None None)
                      (fun _ _ _ => [del_2_5])
                      (fun _ calls => List.length calls) (fun d _ => d)
                      TRACK_COMMAND_REJECT_ALL (session flat_before 1 0))
     = [UpdateState true [removeMark 2 5 insertion; removeMark 2 5 deletion]
                    flat_before].
Proof.
  split; [|reflexivity].
  exact (proj1 (proj2 (proj2 (@all_commands_ignore_the_selection
                  (fixed_active false false) (fixed_range None None)
                  (fun _ _ _ => [del_2_5])
                  (fun _ calls => List.length calls) (fun d _ => d)
                  TRACK_COMMAND_REJECT_ALL (session flat_before 1 0) (2, 4)
                  (fixed_active true true) (fixed_range (Some (1, 2)) None)
                  (or_intror eq_refl))))).
Defined.

Lemma caret_without_range_is_noop_witness :
  changeTrack (fixed_active false false) (fixed_range (Some (1, 4)) (Some (1, 4)))
              (fun l r _ => [mkMarkRange by_bob l r])
              (fun _ calls => List.length calls) (fun d _ => d)
              TRACK_COMMAND_ACCEPT (session flat_before 5 0)
  = session flat_before 5 0.
Proof.
  apply caret_without_range_is_noop.
  - left. reflexivity.
  - reflexivity.
  - left. split; reflexivity.
Defined.


End MoreWitnesses.
